(** * Recursive multisort / merge kernel (multisort-tree.c)

    A shallow embedding of [merge], [multisort], [initialize], [clear],
    [check_sorted] and [main] from
    [Laboratori/Lab4/codesLab4/multisort-tree.c], with the properties the
    specification states about them.

    Modelling choices.
    - The element type [T] is [int]; elements are only copied and compared,
      so a cell holds a [Z].
    - Sizes and offsets are C [long]s.  They are integers of [Z]; every
      product and sum the source computes on them is wrapped to 64 bits
      ([wrap64]), and [/] is C's truncating division ([Z.quot]).
    - A pointer is an address counted in cells; [&p[k]] is [p + k].  The
      memory maps every address to the cell it holds.
    - The OpenMP tasks are run in program order.  The calls that may run
      concurrently write disjoint address ranges, and the [taskgroup]s order
      the three phases of [multisort] exactly as the program order does.
    - Recursion in the source is not bounded by its arguments (a threshold
      that is not positive makes it recurse for ever), so [merge] and
      [multisort] take a recursion budget and return [None] when the budget
      is exhausted. *)

From Stdlib Require Import ZArith List Lia Bool String Ascii.
From Stdlib Require Import Sorting.Sorted Sorting.Permutation.
Import ListNotations.
Local Open Scope Z_scope.

(** ** C integers *)

Definition LONG_MAX : Z := 2 ^ 63 - 1.
Definition LONG_MIN : Z := - 2 ^ 63.
Definition INT_MAX : Z := 2 ^ 31 - 1.

(** Two's complement wrap-around of a [long] and of an [int]. *)
Definition wrap64 (z : Z) : Z := (z + 2 ^ 63) mod 2 ^ 64 - 2 ^ 63.
Definition wrap32 (z : Z) : Z := (z + 2 ^ 31) mod 2 ^ 32 - 2 ^ 31.

Definition in_long (z : Z) : Prop := LONG_MIN <= z <= LONG_MAX.

(** ** Memory *)

Definition ptr := Z.
Definition mem := ptr -> Z.

(** The [n] cells [p[0]], ..., [p[n-1]]. *)
Definition load_range (m : mem) (p : ptr) (n : Z) : list Z :=
  map (fun i => m (p + Z.of_nat i)) (seq 0 (Z.to_nat n)).

(** Writing the list [l] to [p[0]], [p[1]], ... *)
Definition store_range (p : ptr) (l : list Z) (m : mem) : mem :=
  fun a =>
    if (p <=? a) && (a <? p + Z.of_nat (List.length l))
    then nth (Z.to_nat (a - p)) l 0
    else m a.

(** Address [a] lies in [p[0..n)]. *)
Definition in_range (p : ptr) (n : Z) (a : ptr) : Prop := p <= a < p + n.

(** [p[0..n)] and [q[0..k)] share no cell. *)
Definition disjoint (p : ptr) (n : Z) (q : ptr) (k : Z) : Prop :=
  p + n <= q \/ q + k <= p.

(** [m'] differs from [m] at most inside [p[0..n)]. *)
Definition unchanged_outside (p : ptr) (n : Z) (m m' : mem) : Prop :=
  forall a, ~ in_range p n a -> m' a = m a.

(** ** Lists: the two-way merge and the slice of a sequence *)

(** The standard two-pointer merge; on a tie the element of the left
    sequence goes first. *)
Fixpoint merge_by {A : Type} (leb : A -> A -> bool) (l1 l2 : list A)
  {struct l1} : list A :=
  let fix merge_aux (l2 : list A) {struct l2} : list A :=
    match l1, l2 with
    | [], _ => l2
    | _, [] => l1
    | a1 :: l1', a2 :: l2' =>
        if leb a1 a2 then a1 :: merge_by leb l1' l2
        else a2 :: merge_aux l2'
    end
  in merge_aux l2.

Definition merge_lists (l r : list Z) : list Z := merge_by Z.leb l r.

(** Elements [start], ..., [start + len - 1] of [l]. *)
Definition sublist (start len : Z) (l : list Z) : list Z :=
  firstn (Z.to_nat len) (skipn (Z.to_nat start) l).

(** Where an element of a merged sequence came from. *)
Inductive side : Type := FromLeft | FromRight.

Definition tag (s : side) (l : list Z) : list (Z * side) :=
  map (fun x => (x, s)) l.

Definition leb_key (a b : Z * side) : bool := fst a <=? fst b.

(** The merge of [l] and [r] with every element labelled by its origin. *)
Definition merge_tagged (l r : list Z) : list (Z * side) :=
  merge_by leb_key (tag FromLeft l) (tag FromRight r).

(** ** Configuration: the globals of the program *)

Record config : Type := mkConfig {
  N : Z;
  MIN_SORT_SIZE : Z;
  MIN_MERGE_SIZE : Z;
  CUTOFF : Z
}.

(** Sequencing of calls that may exhaust the recursion budget. *)
Definition bind {A B : Type} (x : option A) (f : A -> option B) : option B :=
  match x with
  | Some a => f a
  | None => None
  end.

Notation "x <- c1 ;; c2" := (bind c1 (fun x => c2))
  (at level 61, c1 at next level, right associativity).

(** ** The engine *)

Section Engine.

(** [basicsort] and [basicmerge] are only declared in the source file;
    the engine is parametric in them. *)
Variable basicsort : Z -> ptr -> mem -> mem.
Variable basicmerge : Z -> ptr -> ptr -> ptr -> Z -> Z -> mem -> mem.

Variable cfg : config.

Fixpoint merge (fuel : nat) (n : Z) (left right result : ptr)
  (start length : Z) (m : mem) : option mem :=
  match fuel with
  | O => None
  | S fuel' =>
      if length <? wrap64 (MIN_MERGE_SIZE cfg * 2) then
        Some (basicmerge n left right result start length m)
      else
        m1 <- merge fuel' n left right result start (length ÷ 2) m ;;
        merge fuel' n left right result
          (wrap64 (start + length ÷ 2)) (length ÷ 2) m1
  end.

Fixpoint multisort (fuel : nat) (n : Z) (data tmp : ptr) (m : mem)
  : option mem :=
  match fuel with
  | O => None
  | S fuel' =>
      if wrap64 (MIN_SORT_SIZE cfg * 4) <=? n then
        m1 <- multisort fuel' (n ÷ 4) data tmp m ;;
        m2 <- multisort fuel' (n ÷ 4) (data + n ÷ 4) (tmp + n ÷ 4) m1 ;;
        m3 <- multisort fuel' (n ÷ 4) (data + n ÷ 2) (tmp + n ÷ 2) m2 ;;
        m4 <- multisort fuel' (n ÷ 4)
                (data + wrap64 (3 * n) ÷ 4) (tmp + wrap64 (3 * n) ÷ 4) m3 ;;
        m5 <- merge fuel' (n ÷ 4) data (data + n ÷ 4) tmp 0 (n ÷ 2) m4 ;;
        m6 <- merge fuel' (n ÷ 4) (data + n ÷ 2)
                (data + wrap64 (3 * n) ÷ 4) (tmp + n ÷ 2) 0 (n ÷ 2) m5 ;;
        merge fuel' (n ÷ 2) tmp (tmp + n ÷ 2) data 0 n m6
      else
        Some (basicsort n data m)
  end.

End Engine.

(** ** Contracts of the base-case routines *)

(** [n] is a positive power of two. *)
Definition is_pow2 (n : Z) : Prop := exists k : nat, n = 2 ^ Z.of_nat k.

(** [basicsort(n, data)] sorts [data[0..n)] in place: afterwards the range
    is in non-decreasing order, holds the values it held before, and no
    other cell has changed. *)
Definition basicsort_contract (basicsort : Z -> ptr -> mem -> mem) : Prop :=
  forall n data m,
    0 <= n ->
    Sorted Z.le (load_range (basicsort n data m) data n) /\
    Permutation (load_range m data n) (load_range (basicsort n data m) data n) /\
    unchanged_outside data n m (basicsort n data m).

(** [basicmerge(n, left, right, result, start, length)]: when [left[0..n)]
    and [right[0..n)] are sorted and [result[0..2n)] overlaps neither, the
    call writes to [result[start..start+length)] that slice of the stable
    two-way merge of [left] and [right], and changes no other cell. *)
Definition basicmerge_contract
  (basicmerge : Z -> ptr -> ptr -> ptr -> Z -> Z -> mem -> mem) : Prop :=
  forall n left right result start len m,
    0 <= n -> 0 <= start -> 0 <= len -> start + len <= 2 * n ->
    Sorted Z.le (load_range m left n) ->
    Sorted Z.le (load_range m right n) ->
    disjoint result (2 * n) left n ->
    disjoint result (2 * n) right n ->
    load_range (basicmerge n left right result start len m)
               (result + start) len
    = sublist start len
        (merge_lists (load_range m left n) (load_range m right n)) /\
    unchanged_outside (result + start) len m
      (basicmerge n left right result start len m).

(** The thresholds for which the products [MIN_SORT_SIZE*4L] and
    [MIN_MERGE_SIZE*2L] are positive and do not overflow. *)
Definition valid_thresholds (cfg : config) : Prop :=
  0 < MIN_SORT_SIZE cfg /\ MIN_SORT_SIZE cfg * 4 <= LONG_MAX /\
  0 < MIN_MERGE_SIZE cfg /\ MIN_MERGE_SIZE cfg * 2 <= LONG_MAX.

(** [m'] differs from [m] at most inside [data[0..n)] and [tmp[0..n)]. *)
Definition unchanged_outside2 (data tmp : ptr) (n : Z) (m m' : mem) : Prop :=
  forall a, ~ in_range data n a -> ~ in_range tmp n a -> m' a = m a.

(** Between [m] and [m'], the range [p[0..n)] has been sorted. *)
Definition sorted_from (p : ptr) (n : Z) (m m' : mem) : Prop :=
  Sorted Z.le (load_range m' p n) /\
  Permutation (load_range m p n) (load_range m' p n).

(** ** Sequential base cases *)

Module Kernels.

Fixpoint insert (x : Z) (l : list Z) : list Z :=
  match l with
  | [] => [x]
  | y :: l' => if x <=? y then x :: l else y :: insert x l'
  end.

Fixpoint insertion_sort (l : list Z) : list Z :=
  match l with
  | [] => []
  | x :: l' => insert x (insertion_sort l')
  end.

(** Modelled from the spec: [basicsort] is declared but not defined in the
    source files at hand.  The specification asks for a total, correct,
    stable sequential sort of [data[0..n)] in place; an insertion sort is
    one of the algorithms it names. *)
Definition basicsort (n : Z) (data : ptr) (m : mem) : mem :=
  store_range data (insertion_sort (load_range m data n)) m.

(** Modelled from the spec: [basicmerge] is declared but not defined in
    the source files at hand.  The specification describes a sequential
    two-pointer merge over [left] and [right] that produces
    [result[start .. start+length)], the slice at offset [start] of the
    combined output, with ties taken from [left] first. *)
Definition basicmerge (n : Z) (left right result : ptr)
  (start length : Z) (m : mem) : mem :=
  store_range (result + start)
    (sublist start length
       (merge_lists (load_range m left n) (load_range m right n)))
    m.

End Kernels.

(** ** The driver *)

Definition store (a : ptr) (v : Z) (m : mem) : mem :=
  fun b => if b =? a then v else m b.

(** [initialize(length, data)]; [rnd] is what [rand()] returns.  The sum
    [data[i-1]+1] is an [int], the products are [long]s, [%] is C's
    remainder and the result is stored in an [int].  [Z.rem] is the
    remainder of C wherever C defines it: the program traps on [% 0] and on
    [LONG_MIN % -1], so the model follows the source for [N] other than 0
    and -1 (in [main], where [length] is [N], the remainder is only taken
    when [N >= 2]). *)
Definition initialize (cfg : config) (rnd : Z) (length : Z) (data : ptr)
  (m : mem) : mem :=
  fold_left
    (fun m i =>
       if i =? 0 then store (data + i) rnd m
       else
         store (data + i)
           (wrap32
              (Z.rem
                 (wrap64 (wrap64 (wrap32 (m (data + i - 1) + 1) * i) * 104723))
                 (N cfg)))
           m)
    (map Z.of_nat (seq 0 (Z.to_nat length))) m.

(** [clear(length, data)]. *)
Definition clear (length : Z) (data : ptr) (m : mem) : mem :=
  fold_left (fun m i => store (data + i) 0 m)
    (map Z.of_nat (seq 0 (Z.to_nat length))) m.

(** [check_sorted(n, data)]: the number of positions [i] in [1..n) with
    [data[i-1] > data[i]]; the source prints an error when it is positive.
    The counters [i] and [unsorted] of the source are [int]s and [n] is a
    [long]: beyond [n = INT_MAX] the increment of [i] overflows.  The model
    counts in unbounded integers, so it follows the source for
    [n <= INT_MAX], and the properties below are stated for such [n]. *)
Definition check_sorted (n : Z) (data : ptr) (m : mem) : Z :=
  Z.of_nat
    (List.length
       (filter (fun i => m (data + i - 1) >? m (data + i))
          (map Z.of_nat (seq 1 (Z.to_nat n - 1))))).

(** *** [atol] and [atoi] *)

Definition is_space (c : ascii) : bool :=
  let k := nat_of_ascii c in
  (k =? 32)%nat || ((9 <=? k)%nat && (k <=? 13)%nat).

Definition digit_of (c : ascii) : option Z :=
  let k := Z.of_nat (nat_of_ascii c) in
  if (48 <=? k) && (k <=? 57) then Some (k - 48) else None.

Fixpoint skip_spaces (s : string) : string :=
  match s with
  | String c s' => if is_space c then skip_spaces s' else s
  | EmptyString => s
  end.

(** Value of the longest prefix of decimal digits. *)
Fixpoint digits_value (s : string) (acc : Z) : Z :=
  match s with
  | String c s' =>
      match digit_of c with
      | Some d => digits_value s' (10 * acc + d)
      | None => acc
      end
  | EmptyString => acc
  end.

(** [strtol(s, NULL, 10)]: blanks, an optional sign, digits; a value out of
    range is clamped. *)
Definition strtol10 (s : string) : Z :=
  let clamp z := Z.max LONG_MIN (Z.min LONG_MAX z) in
  match skip_spaces s with
  | String "-"%char s' => clamp (- digits_value s' 0)
  | String "+"%char s' => clamp (digits_value s' 0)
  | s' => clamp (digits_value s' 0)
  end.

Definition atol (s : string) : Z := strtol10 s.
Definition atoi (s : string) : Z := wrap32 (strtol10 s).

(** *** Command line *)

Inductive args_result : Type :=
| ArgsOk (cfg : config)
| ArgsUsage        (* usage text on stderr, [return EXIT_FAILURE] *)
| ArgsNull.        (* an option is the last word: [atol(argv[argc])] *)

(** The defaults [main] assigns before it reads the command line. *)
Definition default_config : config :=
  {| N := 32768 * 1024; MIN_SORT_SIZE := 1024; MIN_MERGE_SIZE := 1024;
     CUTOFF := 16 |}.

(** The argument loop of [main], on [argv[1..argc)].  [openmp] tells
    whether [_OPENMP] is defined. *)
Fixpoint process_args (openmp : bool) (args : list string) (cfg : config)
  : args_result :=
  match args with
  | [] => ArgsOk cfg
  | a :: rest =>
      if String.eqb a "-n" then
        match rest with
        | [] => ArgsNull
        | v :: rest' =>
            process_args openmp rest'
              {| N := wrap64 (atol v * 1024);
                 MIN_SORT_SIZE := MIN_SORT_SIZE cfg;
                 MIN_MERGE_SIZE := MIN_MERGE_SIZE cfg;
                 CUTOFF := CUTOFF cfg |}
        end
      else if String.eqb a "-s" then
        match rest with
        | [] => ArgsNull
        | v :: rest' =>
            process_args openmp rest'
              {| N := N cfg;
                 MIN_SORT_SIZE := atol v;
                 MIN_MERGE_SIZE := MIN_MERGE_SIZE cfg;
                 CUTOFF := CUTOFF cfg |}
        end
      else if String.eqb a "-m" then
        match rest with
        | [] => ArgsNull
        | v :: rest' =>
            process_args openmp rest'
              {| N := N cfg;
                 MIN_SORT_SIZE := MIN_SORT_SIZE cfg;
                 MIN_MERGE_SIZE := atol v;
                 CUTOFF := CUTOFF cfg |}
        end
      else if openmp && String.eqb a "-c" then
        match rest with
        | [] => ArgsNull
        | v :: rest' =>
            process_args openmp rest'
              {| N := N cfg;
                 MIN_SORT_SIZE := MIN_SORT_SIZE cfg;
                 MIN_MERGE_SIZE := MIN_MERGE_SIZE cfg;
                 CUTOFF := atoi v |}
        end
      else ArgsUsage
  end.

(** What [main] writes to [stdout], without the timing lines and the
    thread count. *)
Inductive event : Type :=
| PrintProblem (kelements min_sort min_merge : Z)
| PrintCutoff (cutoff : Z)
| PrintNotSorted (unsorted : Z)
| PrintFinished.

Inductive outcome : Type :=
| ExitFailure                        (* [return EXIT_FAILURE] *)
| Crash                              (* [atol] of a null pointer *)
| NoReturn                           (* recursion budget exhausted *)
| Exit0 (cfg : config) (out : list event) (m : mem).

Section Driver.

Variable basicsort : Z -> ptr -> mem -> mem.
Variable basicmerge : Z -> ptr -> ptr -> ptr -> Z -> Z -> mem -> mem.

(** [main]: [data] and [tmp] are the blocks the two [malloc]s return, [m]
    the memory before [initialize].  The source does not test the results
    of [malloc]; the model has no outcome for a null result, it describes
    the runs in which both allocations succeeded. *)
Definition main (fuel : nat) (openmp : bool) (argv : list string)
  (rnd : Z) (data tmp : ptr) (m : mem) : outcome :=
  match process_args openmp (tl argv) default_config with
  | ArgsUsage => ExitFailure
  | ArgsNull => Crash
  | ArgsOk cfg =>
      let banner :=
        PrintProblem (N cfg ÷ 1024) (MIN_SORT_SIZE cfg) (MIN_MERGE_SIZE cfg)
        :: (if openmp then [PrintCutoff (CUTOFF cfg)] else []) in
      let m1 := initialize cfg rnd (N cfg) data m in
      let m2 := clear (N cfg) tmp m1 in
      match multisort basicsort basicmerge cfg fuel (N cfg) data tmp m2 with
      | None => NoReturn
      | Some m3 =>
          let unsorted := check_sorted (N cfg) data m3 in
          Exit0 cfg
            (banner
             ++ (if 0 <? unsorted then [PrintNotSorted unsorted] else [])
             ++ [PrintFinished])
            m3
      end
  end.

End Driver.

(** ** A concrete run

    The scenario of the specification: eight elements, both thresholds 2;
    [data] is the block at address 0 and [tmp] the block at address 8. *)

Definition scenario_input : list Z := [5; 3; 8; 1; 9; 2; 7; 4].

Definition scenario_config : config :=
  {| N := 8; MIN_SORT_SIZE := 2; MIN_MERGE_SIZE := 2; CUTOFF := 16 |}.

Definition scenario_mem : mem := store_range 0 scenario_input (fun _ => 0).

Definition scenario_output : list Z := [1; 2; 3; 4; 5; 7; 8; 9].

(** The configuration [cfg] with another value of [CUTOFF]. *)
Definition set_cutoff (c : Z) (cfg : config) : config :=
  {| N := N cfg; MIN_SORT_SIZE := MIN_SORT_SIZE cfg;
     MIN_MERGE_SIZE := MIN_MERGE_SIZE cfg; CUTOFF := c |}.

(** The configuration the comments of the source ask for. *)
Definition well_formed (cfg : config) : Prop :=
  is_pow2 (N cfg) /\ is_pow2 (MIN_SORT_SIZE cfg) /\
  is_pow2 (MIN_MERGE_SIZE cfg).

(** The size of a buffer of [n] elements in bytes, [n * sizeof(T)], fits a
    [long]. *)
Definition buffer_size_ok (n : Z) : Prop := n * 4 <= LONG_MAX.

(** ** The globals within their C types *)

Definition in_int (z : Z) : Prop := - 2 ^ 31 <= z <= 2 ^ 31 - 1.

(** [N], [MIN_SORT_SIZE] and [MIN_MERGE_SIZE] are [long]s, [CUTOFF] is an
    [int]. *)
Definition well_typed (cfg : config) : Prop :=
  in_long (N cfg) /\ in_long (MIN_SORT_SIZE cfg) /\
  in_long (MIN_MERGE_SIZE cfg) /\ in_int (CUTOFF cfg).

(** The words the argument loop of [main] compares [argv[i]] with. *)
Definition is_option (openmp : bool) (a : string) : Prop :=
  a = "-n"%string \/ a = "-s"%string \/ a = "-m"%string \/
  (openmp = true /\ a = "-c"%string).

(** What one word of the command line does in the argument loop of [main]:
    nothing recognised ([None]), or an option that stores the word after it
    in a global. *)
Definition set_option (openmp : bool) (a : string)
  : option (string -> config -> config) :=
  if String.eqb a "-n" then
    Some (fun v cfg =>
            {| N := wrap64 (atol v * 1024);
               MIN_SORT_SIZE := MIN_SORT_SIZE cfg;
               MIN_MERGE_SIZE := MIN_MERGE_SIZE cfg;
               CUTOFF := CUTOFF cfg |})
  else if String.eqb a "-s" then
    Some (fun v cfg =>
            {| N := N cfg;
               MIN_SORT_SIZE := atol v;
               MIN_MERGE_SIZE := MIN_MERGE_SIZE cfg;
               CUTOFF := CUTOFF cfg |})
  else if String.eqb a "-m" then
    Some (fun v cfg =>
            {| N := N cfg;
               MIN_SORT_SIZE := MIN_SORT_SIZE cfg;
               MIN_MERGE_SIZE := atol v;
               CUTOFF := CUTOFF cfg |})
  else if openmp && String.eqb a "-c" then
    Some (fun v cfg =>
            {| N := N cfg;
               MIN_SORT_SIZE := MIN_SORT_SIZE cfg;
               MIN_MERGE_SIZE := MIN_MERGE_SIZE cfg;
               CUTOFF := atoi v |})
  else None.

(** * Properties *)

(** ** C integers *)

Lemma wrap64_id (z : Z) : in_long z -> wrap64 z = z.
Proof.
  unfold in_long, LONG_MIN, LONG_MAX, wrap64. intros H.
  rewrite Z.mod_small; lia.
Qed.

Lemma wrap64_multiple (c x : Z) :
  (c | 2 ^ 63) -> exists q, wrap64 (x * c) = c * q.
Proof.
  intros [d Hd]. unfold wrap64.
  rewrite Z.mod_eq by lia.
  exists (x + d - 2 * d * ((x * c + 2 ^ 63) / 2 ^ 64) - d).
  replace (2 ^ 64) with (2 * 2 ^ 63) by reflexivity.
  rewrite Hd. ring.
Qed.

Lemma wrap64_mul4 (x : Z) : exists q, wrap64 (x * 4) = 4 * q.
Proof. apply wrap64_multiple. exists (2 ^ 61). reflexivity. Qed.

Lemma wrap64_mul2 (x : Z) : exists q, wrap64 (x * 2) = 2 * q.
Proof. apply wrap64_multiple. exists (2 ^ 62). reflexivity. Qed.

Lemma pow2_pos (k : nat) : 0 < 2 ^ Z.of_nat k.
Proof. apply Z.pow_pos_nonneg; lia. Qed.

Lemma pow2_S (k : nat) : 2 ^ Z.of_nat (S k) = 2 * 2 ^ Z.of_nat k.
Proof. rewrite Nat2Z.inj_succ, Z.pow_succ_r by lia. reflexivity. Qed.

Lemma pow2_quot2 (k : nat) : 2 ^ Z.of_nat (S k) ÷ 2 = 2 ^ Z.of_nat k.
Proof.
  rewrite pow2_S. pose proof (pow2_pos k).
  rewrite Z.quot_div_nonneg by lia.
  rewrite Z.mul_comm, Z.div_mul by lia. reflexivity.
Qed.

Lemma pow2_quot4 (k : nat) : 2 ^ Z.of_nat (S (S k)) ÷ 4 = 2 ^ Z.of_nat k.
Proof.
  rewrite !pow2_S. pose proof (pow2_pos k).
  rewrite Z.quot_div_nonneg by lia.
  replace (2 * (2 * 2 ^ Z.of_nat k)) with (2 ^ Z.of_nat k * 4) by ring.
  rewrite Z.div_mul by lia. reflexivity.
Qed.

(** A power of two that reaches a positive multiple of [c] is at least [c]. *)
Lemma pow2_ge_4 (k : nat) (q : Z) :
  0 < 4 * q -> 4 * q <= 2 ^ Z.of_nat k -> exists j, k = S (S j).
Proof.
  intros Hq Hle. destruct k as [|[|j]].
  - change (2 ^ Z.of_nat 0) with 1 in Hle. lia.
  - change (2 ^ Z.of_nat 1) with 2 in Hle. lia.
  - eauto.
Qed.

Lemma pow2_ge_2 (k : nat) (q : Z) :
  0 < 2 * q -> 2 * q <= 2 ^ Z.of_nat k -> exists j, k = S j.
Proof.
  intros Hq Hle. destruct k as [|j].
  - change (2 ^ Z.of_nat 0) with 1 in Hle. lia.
  - eauto.
Qed.

(** ** Memory ranges *)

Lemma load_range_length (m : mem) (p : ptr) (n : Z) :
  List.length (load_range m p n) = Z.to_nat n.
Proof. unfold load_range. now rewrite length_map, length_seq. Qed.

Lemma load_range_ext (m m' : mem) (p : ptr) (n : Z) :
  (forall a, in_range p n a -> m' a = m a) ->
  load_range m' p n = load_range m p n.
Proof.
  intros H. unfold load_range. apply map_ext_in.
  intros i Hi. apply in_seq in Hi. apply H. unfold in_range. lia.
Qed.

Lemma map_seq_shift {A : Type} (f : nat -> A) (a b s : nat) :
  map f (seq (s + a) b) = map (fun i => f (i + a)%nat) (seq s b).
Proof.
  revert s. induction b as [|b IH]; intros s; simpl.
  - reflexivity.
  - f_equal. apply (IH (S s)).
Qed.

Lemma load_range_app (m : mem) (p : ptr) (a b : Z) :
  0 <= a -> 0 <= b ->
  load_range m p (a + b) = load_range m p a ++ load_range m (p + a) b.
Proof.
  intros Ha Hb. unfold load_range.
  rewrite Z2Nat.inj_add, seq_app, map_app by lia. f_equal.
  rewrite map_seq_shift. apply map_ext.
  intros i. f_equal. lia.
Qed.

Lemma load_range_nth (m : mem) (p : ptr) (n : Z) (i : nat) :
  (i < Z.to_nat n)%nat -> nth i (load_range m p n) 0 = m (p + Z.of_nat i).
Proof.
  intros Hi. unfold load_range.
  rewrite (nth_indep _ 0 (m (p + Z.of_nat 0))) by now rewrite length_map, length_seq.
  rewrite (map_nth (fun i => m (p + Z.of_nat i))), seq_nth by assumption.
  reflexivity.
Qed.

Lemma load_store_range (m : mem) (p : ptr) (l : list Z) (n : Z) :
  n = Z.of_nat (List.length l) ->
  load_range (store_range p l m) p n = l.
Proof.
  intros ->. apply (nth_ext _ _ 0 0).
  - rewrite load_range_length. lia.
  - intros i Hi. rewrite load_range_length in Hi.
    rewrite load_range_nth by assumption.
    unfold store_range.
    replace ((p <=? p + Z.of_nat i) && (p + Z.of_nat i <? p + Z.of_nat (List.length l)))
      with true by (symmetry; apply andb_true_iff; split; [apply Z.leb_le | apply Z.ltb_lt]; lia).
    f_equal. lia.
Qed.

Lemma store_range_outside (m : mem) (p : ptr) (l : list Z) (n : Z) :
  Z.of_nat (List.length l) <= n ->
  unchanged_outside p n m (store_range p l m).
Proof.
  intros Hn a Ha. unfold in_range in Ha. unfold store_range.
  destruct (p <=? a) eqn:E1; simpl; [|reflexivity].
  destruct (a <? p + Z.of_nat (List.length l)) eqn:E2; [|reflexivity].
  apply Z.leb_le in E1. apply Z.ltb_lt in E2. lia.
Qed.

Lemma unchanged_outside_load (m m' : mem) (p q : ptr) (n k : Z) :
  unchanged_outside p n m m' -> disjoint p n q k ->
  load_range m' q k = load_range m q k.
Proof.
  intros Hu Hd. apply load_range_ext. intros a Ha. apply Hu.
  unfold in_range, disjoint in *. lia.
Qed.

Lemma unchanged_outside2_load (m m' : mem) (d t p : ptr) (n k : Z) :
  unchanged_outside2 d t n m m' -> disjoint d n p k -> disjoint t n p k ->
  load_range m' p k = load_range m p k.
Proof.
  intros Hu Hd Ht. apply load_range_ext. intros a Ha. apply Hu;
    unfold in_range, disjoint in *; lia.
Qed.

#[local] Ltac ranges := unfold disjoint, in_range in *; lia.

(** ** The two-way merge *)

Section MergeBy.

Context {A : Type} (leb : A -> A -> bool).

Lemma merge_by_nil_r (l : list A) : merge_by leb l [] = l.
Proof. destruct l; reflexivity. Qed.

Lemma merge_by_cons (a b : A) (l1 l2 : list A) :
  merge_by leb (a :: l1) (b :: l2) =
  if leb a b then a :: merge_by leb l1 (b :: l2)
  else b :: merge_by leb (a :: l1) l2.
Proof. reflexivity. Qed.

(** Induction along the steps of the merge. *)
Lemma merge_by_ind (P : list A -> list A -> list A -> Prop) :
  (forall l2, P [] l2 l2) ->
  (forall l1, P l1 [] l1) ->
  (forall a b l1 l2, leb a b = true ->
     P l1 (b :: l2) (merge_by leb l1 (b :: l2)) ->
     P (a :: l1) (b :: l2) (a :: merge_by leb l1 (b :: l2))) ->
  (forall a b l1 l2, leb a b = false ->
     P (a :: l1) l2 (merge_by leb (a :: l1) l2) ->
     P (a :: l1) (b :: l2) (b :: merge_by leb (a :: l1) l2)) ->
  forall l1 l2, P l1 l2 (merge_by leb l1 l2).
Proof.
  intros Hnil_l Hnil_r Hleft Hright.
  induction l1 as [|a l1 IH1]; intros l2.
  - destruct l2; apply Hnil_l.
  - induction l2 as [|b l2 IH2].
    + apply Hnil_r.
    + rewrite merge_by_cons. destruct (leb a b) eqn:E.
      * apply Hleft; [assumption | apply IH1].
      * apply Hright; assumption.
Qed.

Lemma merge_by_length (l1 l2 : list A) :
  List.length (merge_by leb l1 l2) = (List.length l1 + List.length l2)%nat.
Proof.
  apply (merge_by_ind
           (fun l1 l2 r => List.length r = (List.length l1 + List.length l2)%nat));
    intros; simpl in *; lia.
Qed.

Lemma merge_by_perm (l1 l2 : list A) :
  Permutation (l1 ++ l2) (merge_by leb l1 l2).
Proof.
  apply (merge_by_ind (fun l1 l2 r => Permutation (l1 ++ l2) r)).
  - intros. reflexivity.
  - intros. rewrite app_nil_r. reflexivity.
  - intros a b k1 k2 _ IH. simpl. now constructor.
  - intros a b k1 k2 _ IH.
    apply Permutation_sym, Permutation_cons_app, Permutation_sym, IH.
Qed.

End MergeBy.

Lemma merge_by_map {A B : Type} (leb : A -> A -> bool)
  (lebB : B -> B -> bool) (f : A -> B) (l1 l2 : list A) :
  (forall x y, lebB (f x) (f y) = leb x y) ->
  map f (merge_by leb l1 l2) = merge_by lebB (map f l1) (map f l2).
Proof.
  intros Hf.
  apply (merge_by_ind leb
           (fun l1 l2 r => map f r = merge_by lebB (map f l1) (map f l2))).
  - intros k2. destruct k2; reflexivity.
  - intros k1. simpl map. now rewrite merge_by_nil_r.
  - intros a b k1 k2 E IH. simpl map in *.
    rewrite merge_by_cons, Hf, E, IH. reflexivity.
  - intros a b k1 k2 E IH. simpl map in *.
    rewrite merge_by_cons, Hf, E, IH. reflexivity.
Qed.

Lemma merge_lists_length (l r : list Z) :
  List.length (merge_lists l r) = (List.length l + List.length r)%nat.
Proof. apply merge_by_length. Qed.

Lemma merge_lists_perm (l r : list Z) :
  Permutation (l ++ r) (merge_lists l r).
Proof. apply merge_by_perm. Qed.

Lemma HdRel_merge_lists (x : Z) (l r : list Z) :
  HdRel Z.le x l -> HdRel Z.le x r -> HdRel Z.le x (merge_lists l r).
Proof.
  unfold merge_lists.
  apply (merge_by_ind Z.leb
           (fun l r res => HdRel Z.le x l -> HdRel Z.le x r -> HdRel Z.le x res)).
  - auto.
  - auto.
  - intros a b k1 k2 _ _ H1 _. inversion H1; subst. now constructor.
  - intros a b k1 k2 _ _ _ H2. inversion H2; subst. now constructor.
Qed.

Lemma merge_lists_sorted (l r : list Z) :
  Sorted Z.le l -> Sorted Z.le r -> Sorted Z.le (merge_lists l r).
Proof.
  unfold merge_lists.
  apply (merge_by_ind Z.leb
           (fun l r res => Sorted Z.le l -> Sorted Z.le r -> Sorted Z.le res)).
  - auto.
  - auto.
  - intros a b k1 k2 E IH H1 H2. apply Z.leb_le in E.
    inversion H1; subst. constructor.
    + now apply IH.
    + apply HdRel_merge_lists; [assumption | now constructor].
  - intros a b k1 k2 E IH H1 H2. apply Z.leb_gt in E.
    inversion H2; subst. constructor.
    + now apply IH.
    + apply HdRel_merge_lists; [constructor; lia | assumption].
Qed.

(** A sequence has one sorted arrangement. *)
Lemma sorted_perm_unique (l1 l2 : list Z) :
  Sorted Z.le l1 -> Sorted Z.le l2 -> Permutation l1 l2 -> l1 = l2.
Proof.
  revert l2. induction l1 as [|a l1 IH]; intros l2 H1 H2 HP.
  - apply Permutation_nil in HP. now subst.
  - destruct l2 as [|b l2].
    + apply Permutation_sym, Permutation_nil in HP. discriminate.
    + assert (Hab : a = b).
      { apply Sorted_StronglySorted in H1; [|exact Z.le_trans].
        apply Sorted_StronglySorted in H2; [|exact Z.le_trans].
        inversion H1 as [|? ? _ Ha]; subst. inversion H2 as [|? ? _ Hb]; subst.
        rewrite Forall_forall in Ha, Hb.
        assert (In b (a :: l1)) as [->|Hin1]
            by (eapply Permutation_in; [apply Permutation_sym, HP | now left]);
          [reflexivity|].
        assert (In a (b :: l2)) as [->|Hin2]
            by (eapply Permutation_in; [apply HP | now left]);
          [reflexivity|].
        specialize (Ha _ Hin1). specialize (Hb _ Hin2). lia. }
      subst b. f_equal. apply IH.
      * now inversion H1.
      * now inversion H2.
      * eapply Permutation_cons_inv, HP.
Qed.

(** In the labelled merge of two sorted sequences, an element of the right
    sequence never comes before an element of the left one of equal value. *)
Lemma merge_by_stable (l1 l2 : list (Z * side)) :
  Forall (fun x => snd x = FromLeft) l1 ->
  Forall (fun x => snd x = FromRight) l2 ->
  StronglySorted (fun a b => fst a <= fst b) l1 ->
  forall (i j : nat) (v : Z),
    nth_error (merge_by leb_key l1 l2) i = Some (v, FromRight) ->
    nth_error (merge_by leb_key l1 l2) j = Some (v, FromLeft) ->
    (j < i)%nat.
Proof.
  apply (merge_by_ind leb_key
    (fun l1 l2 r =>
       Forall (fun x => snd x = FromLeft) l1 ->
       Forall (fun x => snd x = FromRight) l2 ->
       StronglySorted (fun a b => fst a <= fst b) l1 ->
       forall (i j : nat) (v : Z),
         nth_error r i = Some (v, FromRight) ->
         nth_error r j = Some (v, FromLeft) -> (j < i)%nat)).
  - intros k2 _ H2 _ i j v _ Hj. apply nth_error_In in Hj.
    rewrite Forall_forall in H2. apply H2 in Hj. discriminate.
  - intros k1 H1 _ _ i j v Hi _. apply nth_error_In in Hi.
    rewrite Forall_forall in H1. apply H1 in Hi. discriminate.
  - intros a b k1 k2 _ IH H1 H2 HS i j v Hi Hj.
    inversion H1 as [|? ? Ha H1']; subst. inversion HS; subst.
    destruct i as [|i]; cbn [nth_error] in Hi.
    + injection Hi as ->. discriminate.
    + destruct j as [|j]; [lia|]. cbn [nth_error] in Hj.
      apply -> Nat.succ_lt_mono. eapply IH; eauto.
  - intros a b k1 k2 E IH H1 H2 HS i j v Hi Hj.
    inversion H2 as [|? ? Hb H2']; subst.
    destruct j as [|j]; cbn [nth_error] in Hj.
    + injection Hj as ->. discriminate.
    + destruct i as [|i]; cbn [nth_error] in Hi.
      * exfalso. injection Hi as ->. unfold leb_key in E. simpl in E.
        apply Z.leb_gt in E.
        apply nth_error_In in Hj.
        eapply Permutation_in in Hj;
          [|apply Permutation_sym, merge_by_perm].
        apply in_app_or in Hj. destruct Hj as [Hj|Hj].
        -- destruct Hj as [->|Hj]; [simpl in E; lia|].
           inversion HS as [|? ? _ Hall]; subst.
           rewrite Forall_forall in Hall. apply Hall in Hj. simpl in Hj. lia.
        -- rewrite Forall_forall in H2'. apply H2' in Hj. discriminate.
      * apply -> Nat.succ_lt_mono. eapply IH; eauto.
Qed.

Lemma merge_tagged_values (l r : list Z) :
  map fst (merge_tagged l r) = merge_lists l r.
Proof.
  unfold merge_tagged, merge_lists.
  rewrite (merge_by_map leb_key Z.leb fst) by reflexivity.
  unfold tag. rewrite !map_map. simpl. now rewrite !map_id.
Qed.

Lemma merge_tagged_stable (l r : list Z) :
  Sorted Z.le l ->
  forall (i j : nat) (v : Z),
    nth_error (merge_tagged l r) i = Some (v, FromRight) ->
    nth_error (merge_tagged l r) j = Some (v, FromLeft) ->
    (j < i)%nat.
Proof.
  intros HS. apply merge_by_stable.
  - unfold tag. apply Forall_forall. intros x Hx.
    apply in_map_iff in Hx. destruct Hx as (y & <- & _). reflexivity.
  - unfold tag. apply Forall_forall. intros x Hx.
    apply in_map_iff in Hx. destruct Hx as (y & <- & _). reflexivity.
  - apply Sorted_StronglySorted in HS; [|exact Z.le_trans].
    unfold tag. induction HS as [|a l' HS' IH Hall]; simpl; constructor.
    + exact IH.
    + rewrite Forall_forall in *. intros x Hx.
      apply in_map_iff in Hx. destruct Hx as (y & <- & Hy). simpl. auto.
Qed.

(** ** Slices *)

Lemma firstn_add {A : Type} (j k : nat) (t : list A) :
  firstn (j + k) t = firstn j t ++ firstn k (skipn j t).
Proof.
  revert t. induction j as [|j IH]; intros t.
  - reflexivity.
  - destruct t as [|x t]; simpl.
    + now rewrite firstn_nil.
    + now rewrite IH.
Qed.

Lemma sublist_app (s a b : Z) (l : list Z) :
  0 <= s -> 0 <= a -> 0 <= b ->
  sublist s (a + b) l = sublist s a l ++ sublist (s + a) b l.
Proof.
  intros Hs Ha Hb. unfold sublist.
  rewrite !Z2Nat.inj_add by lia.
  rewrite firstn_add, skipn_skipn.
  now rewrite (Nat.add_comm (Z.to_nat a)).
Qed.

Lemma sublist_all (n : Z) (l : list Z) :
  n = Z.of_nat (List.length l) -> sublist 0 n l = l.
Proof.
  intros ->. unfold sublist. simpl. rewrite Nat2Z.id. apply firstn_all.
Qed.

Lemma sublist_length (s n : Z) (l : list Z) :
  0 <= s -> 0 <= n -> s + n <= Z.of_nat (List.length l) ->
  List.length (sublist s n l) = Z.to_nat n.
Proof.
  intros Hs Hn Hl. unfold sublist.
  rewrite firstn_length_le; [reflexivity|].
  rewrite length_skipn. lia.
Qed.

(** ** The engine: control *)

Section Control.

Variable basicsort : Z -> ptr -> mem -> mem.
Variable basicmerge : Z -> ptr -> ptr -> ptr -> Z -> Z -> mem -> mem.
Variable cfg : config.

Local Abbreviation merge := (merge basicmerge cfg).
Local Abbreviation multisort := (multisort basicsort basicmerge cfg).

Lemma merge_S fuel n left right result start len m :
  merge (S fuel) n left right result start len m =
  if len <? wrap64 (MIN_MERGE_SIZE cfg * 2) then
    Some (basicmerge n left right result start len m)
  else
    m1 <- merge fuel n left right result start (len ÷ 2) m ;;
    merge fuel n left right result (wrap64 (start + len ÷ 2)) (len ÷ 2) m1.
Proof. reflexivity. Qed.

Lemma multisort_S fuel n data tmp m :
  multisort (S fuel) n data tmp m =
  if wrap64 (MIN_SORT_SIZE cfg * 4) <=? n then
    m1 <- multisort fuel (n ÷ 4) data tmp m ;;
    m2 <- multisort fuel (n ÷ 4) (data + n ÷ 4) (tmp + n ÷ 4) m1 ;;
    m3 <- multisort fuel (n ÷ 4) (data + n ÷ 2) (tmp + n ÷ 2) m2 ;;
    m4 <- multisort fuel (n ÷ 4)
            (data + wrap64 (3 * n) ÷ 4) (tmp + wrap64 (3 * n) ÷ 4) m3 ;;
    m5 <- merge fuel (n ÷ 4) data (data + n ÷ 4) tmp 0 (n ÷ 2) m4 ;;
    m6 <- merge fuel (n ÷ 4) (data + n ÷ 2)
            (data + wrap64 (3 * n) ÷ 4) (tmp + n ÷ 2) 0 (n ÷ 2) m5 ;;
    merge fuel (n ÷ 2) tmp (tmp + n ÷ 2) data 0 n m6
  else
    Some (basicsort n data m).
Proof. reflexivity. Qed.

(** A merge threshold that is not positive: the recursion never ends. *)
Lemma merge_diverges (fuel : nat) :
  wrap64 (MIN_MERGE_SIZE cfg * 2) <= 0 ->
  forall n left right result start len m,
    0 <= len -> merge fuel n left right result start len m = None.
Proof.
  intros Ht. induction fuel as [|fuel IH]; intros.
  - reflexivity.
  - rewrite merge_S. destruct (len <? _) eqn:E.
    + apply Z.ltb_lt in E. lia.
    + rewrite IH; [reflexivity|]. apply Z.quot_pos; lia.
Qed.

Lemma multisort_diverges (fuel : nat) :
  wrap64 (MIN_SORT_SIZE cfg * 4) <= 0 ->
  forall n data tmp m, 0 <= n -> multisort fuel n data tmp m = None.
Proof.
  intros Ht. induction fuel as [|fuel IH]; intros.
  - reflexivity.
  - rewrite multisort_S. destruct (_ <=? n) eqn:E.
    + rewrite IH; [reflexivity|]. apply Z.quot_pos; lia.
    + apply Z.leb_gt in E. lia.
Qed.

(** With a positive threshold, a budget above the exponent suffices. *)
Lemma merge_terminates (k : nat) :
  0 < wrap64 (MIN_MERGE_SIZE cfg * 2) ->
  forall fuel n left right result start m,
    (k < fuel)%nat ->
    exists m', merge fuel n left right result start (2 ^ Z.of_nat k) m = Some m'.
Proof.
  intros Ht. induction k as [|k IH]; intros fuel n left right result start m Hf;
    (destruct fuel as [|fuel]; [lia|]); rewrite merge_S;
    destruct (_ <? _) eqn:E; eauto; apply Z.ltb_ge in E;
    destruct (wrap64_mul2 (MIN_MERGE_SIZE cfg)) as [q Hq]; rewrite Hq in *.
  - change (2 ^ Z.of_nat 0) with 1 in E. lia.
  - rewrite pow2_quot2.
    destruct (IH fuel n left right result start m) as [m1 ->]; [lia|].
    apply IH. lia.
Qed.

Lemma multisort_terminates (fuel : nat) :
  0 < wrap64 (MIN_SORT_SIZE cfg * 4) ->
  0 < wrap64 (MIN_MERGE_SIZE cfg * 2) ->
  forall k data tmp m,
    (k + 1 < fuel)%nat ->
    exists m', multisort fuel (2 ^ Z.of_nat k) data tmp m = Some m'.
Proof.
  intros Hs Hm. induction fuel as [|fuel IH]; intros k data tmp m Hf; [lia|].
  rewrite multisort_S. destruct (_ <=? _) eqn:E; eauto. apply Z.leb_le in E.
  destruct (wrap64_mul4 (MIN_SORT_SIZE cfg)) as [q Hq]. rewrite Hq in *.
  destruct (pow2_ge_4 k q) as [j ->]; [lia | lia |].
  rewrite pow2_quot4, pow2_quot2.
  destruct (IH j data tmp m) as [m1 ->]; [lia|]. cbn [bind].
  destruct (IH j (data + 2 ^ Z.of_nat j) (tmp + 2 ^ Z.of_nat j) m1)
    as [m2 ->]; [lia|]. cbn [bind].
  destruct (IH j (data + 2 ^ Z.of_nat (S j)) (tmp + 2 ^ Z.of_nat (S j)) m2)
    as [m3 ->]; [lia|]. cbn [bind].
  match goal with |- context [multisort fuel _ ?d ?t m3] =>
    destruct (IH j d t m3) as [m4 ->]; [lia|] end. cbn [bind].
  match goal with |- context [merge fuel ?n ?l ?r ?res ?s _ m4] =>
    destruct (merge_terminates (S j) Hm fuel n l r res s m4) as [m5 ->]; [lia|]
  end. cbn [bind].
  match goal with |- context [merge fuel ?n ?l ?r ?res ?s _ m5] =>
    destruct (merge_terminates (S j) Hm fuel n l r res s m5) as [m6 ->]; [lia|]
  end. cbn [bind].
  apply merge_terminates; [assumption | lia].
Qed.

(** The recursive branch of [multisort] on [4q] elements, [q] a power of
    two: the seven calls and the memories between them. *)
Lemma multisort_step (fuel j : nat) data tmp m m' :
  let q := 2 ^ Z.of_nat j in
  wrap64 (MIN_SORT_SIZE cfg * 4) <= 4 * q ->
  4 * (4 * q) <= LONG_MAX ->
  multisort (S fuel) (4 * q) data tmp m = Some m' ->
  exists m1 m2 m3 m4 m5 m6,
    multisort fuel q data tmp m = Some m1 /\
    multisort fuel q (data + q) (tmp + q) m1 = Some m2 /\
    multisort fuel q (data + 2 * q) (tmp + 2 * q) m2 = Some m3 /\
    multisort fuel q (data + 3 * q) (tmp + 3 * q) m3 = Some m4 /\
    merge fuel q data (data + q) tmp 0 (2 * q) m4 = Some m5 /\
    merge fuel q (data + 2 * q) (data + 3 * q) (tmp + 2 * q) 0 (2 * q) m5
    = Some m6 /\
    merge fuel (2 * q) tmp (tmp + 2 * q) data 0 (4 * q) m6 = Some m'.
Proof.
  intros q Ht Hb Hrun. pose proof (pow2_pos j) as Hq. fold q in Hq.
  rewrite multisort_S in Hrun.
  replace (_ <=? _) with true in Hrun by (symmetry; apply Z.leb_le; lia).
  rewrite wrap64_id in Hrun by (unfold in_long, LONG_MIN; lia).
  replace (4 * q ÷ 4) with q in Hrun
    by (rewrite Z.mul_comm, Z.quot_mul; lia).
  replace (4 * q ÷ 2) with (2 * q) in Hrun
    by (replace (4 * q) with (2 * q * 2) by ring; rewrite Z.quot_mul; lia).
  replace (3 * (4 * q) ÷ 4) with (3 * q) in Hrun
    by (replace (3 * (4 * q)) with (3 * q * 4) by ring;
        rewrite Z.quot_mul; lia).
  destruct (multisort fuel q data tmp m) as [m1|] eqn:E1; [|discriminate].
  cbn [bind] in Hrun.
  destruct (multisort fuel q (data + q) (tmp + q) m1) as [m2|] eqn:E2;
    [|discriminate]. cbn [bind] in Hrun.
  destruct (multisort fuel q (data + 2 * q) (tmp + 2 * q) m2) as [m3|] eqn:E3;
    [|discriminate]. cbn [bind] in Hrun.
  destruct (multisort fuel q (data + 3 * q) (tmp + 3 * q) m3) as [m4|] eqn:E4;
    [|discriminate]. cbn [bind] in Hrun.
  destruct (merge fuel q data (data + q) tmp 0 (2 * q) m4) as [m5|] eqn:E5;
    [|discriminate]. cbn [bind] in Hrun.
  destruct (merge fuel q (data + 2 * q) (data + 3 * q) (tmp + 2 * q) 0
              (2 * q) m5) as [m6|] eqn:E6; [|discriminate].
  cbn [bind] in Hrun.
  exists m1, m2, m3, m4, m5, m6. repeat split; assumption.
Qed.

End Control.

(** ** The engine: what the calls compute *)

Section Functional.

Variable basicsort : Z -> ptr -> mem -> mem.
Variable basicmerge : Z -> ptr -> ptr -> ptr -> Z -> Z -> mem -> mem.
Variable cfg : config.

Hypothesis basicsort_ok : basicsort_contract basicsort.
Hypothesis basicmerge_ok : basicmerge_contract basicmerge.

Local Abbreviation merge := (merge basicmerge cfg).
Local Abbreviation multisort := (multisort basicsort basicmerge cfg).

(** [merge] on a slice whose length is a power of two: whenever the call
    returns, the slice holds its part of the merged sequence and nothing
    else has changed. *)
Lemma merge_spec (fuel : nat) :
  forall (k : nat) n left right result start m m',
    0 <= n -> 2 * n <= LONG_MAX ->
    0 <= start -> start + 2 ^ Z.of_nat k <= 2 * n ->
    Sorted Z.le (load_range m left n) ->
    Sorted Z.le (load_range m right n) ->
    disjoint result (2 * n) left n ->
    disjoint result (2 * n) right n ->
    merge fuel n left right result start (2 ^ Z.of_nat k) m = Some m' ->
    load_range m' (result + start) (2 ^ Z.of_nat k)
    = sublist start (2 ^ Z.of_nat k)
        (merge_lists (load_range m left n) (load_range m right n)) /\
    unchanged_outside (result + start) (2 ^ Z.of_nat k) m m'.
Proof.
  induction fuel as [|fuel IH];
    intros k n left right result start m m' Hn Hn2 Hs Hend HL HR DL DR Hrun;
    [discriminate|].
  pose proof (pow2_pos k) as Hk.
  rewrite merge_S in Hrun. destruct (_ <? _) eqn:E.
  - injection Hrun as <-. apply basicmerge_ok; assumption || lia.
  - apply Z.ltb_ge in E.
    destruct (wrap64_mul2 (MIN_MERGE_SIZE cfg)) as [q Hq].
    destruct (Z_le_gt_dec (wrap64 (MIN_MERGE_SIZE cfg * 2)) 0) as [Hneg|Hpos].
    { rewrite (merge_diverges basicmerge cfg fuel Hneg) in Hrun;
        [discriminate|]. apply Z.quot_pos; lia. }
    rewrite Hq in E, Hpos.
    destruct (pow2_ge_2 k q) as [j ->]; [lia | lia |].
    rewrite pow2_quot2 in Hrun. rewrite pow2_S in *.
    pose proof (pow2_pos j) as Hj.
    rewrite wrap64_id in Hrun by (unfold in_long, LONG_MIN; lia).
    destruct (merge fuel n left right result start (2 ^ Z.of_nat j) m)
      as [m1|] eqn:E1;
      [|discriminate]. cbn [bind] in Hrun.
    apply IH in E1; try assumption; try lia. destruct E1 as [A1 U1].
    assert (L1 : load_range m1 left n = load_range m left n).
    { apply load_range_ext. intros a Ha. apply U1.
      unfold in_range, disjoint in *. lia. }
    assert (R1 : load_range m1 right n = load_range m right n).
    { apply load_range_ext. intros a Ha. apply U1.
      unfold in_range, disjoint in *. lia. }
    apply IH in Hrun; try lia; try (rewrite ?L1, ?R1; assumption).
    destruct Hrun as [A2 U2]. rewrite L1, R1 in A2. split.
    + replace (2 * 2 ^ Z.of_nat j) with (2 ^ Z.of_nat j + 2 ^ Z.of_nat j)
        by ring.
      rewrite load_range_app, sublist_app by lia.
      rewrite <- Z.add_assoc, A2. f_equal. rewrite <- A1.
      apply load_range_ext. intros a Ha. apply U2.
      unfold in_range in *. lia.
    + intros a Ha. rewrite U2, U1; [reflexivity | |];
        unfold in_range in *; lia.
Qed.

(** [merge] over the whole output, as [multisort] calls it. *)
Lemma merge_whole (fuel k : nat) n len left right result m m' :
  0 <= n -> len = 2 * n -> len = 2 ^ Z.of_nat k -> len <= LONG_MAX ->
  Sorted Z.le (load_range m left n) ->
  Sorted Z.le (load_range m right n) ->
  disjoint result len left n ->
  disjoint result len right n ->
  merge fuel n left right result 0 len m = Some m' ->
  load_range m' result len
  = merge_lists (load_range m left n) (load_range m right n) /\
  unchanged_outside result len m m'.
Proof.
  intros Hn Hlen Hk Hb HL HR DL DR Hrun.
  rewrite Hk in Hrun. apply merge_spec in Hrun; try assumption; try lia.
  - rewrite Z.add_0_r, <- Hk in Hrun. destruct Hrun as [A U].
    split; [|assumption]. rewrite A. apply sublist_all.
    rewrite merge_lists_length, !load_range_length. lia.
  - now rewrite <- Hlen.
  - now rewrite <- Hlen.
Qed.

(** The three phases of the recursive branch, from what the four
    recursive calls establish. *)
Lemma multisort_phases (fuel j : nat) data tmp m m1 m2 m3 m4 m5 m6 m' :
  let q := 2 ^ Z.of_nat j in
  4 * (4 * q) <= LONG_MAX ->
  disjoint data (4 * q) tmp (4 * q) ->
  sorted_from data q m m1 -> unchanged_outside2 data tmp q m m1 ->
  sorted_from (data + q) q m1 m2 ->
  unchanged_outside2 (data + q) (tmp + q) q m1 m2 ->
  sorted_from (data + 2 * q) q m2 m3 ->
  unchanged_outside2 (data + 2 * q) (tmp + 2 * q) q m2 m3 ->
  sorted_from (data + 3 * q) q m3 m4 ->
  unchanged_outside2 (data + 3 * q) (tmp + 3 * q) q m3 m4 ->
  merge fuel q data (data + q) tmp 0 (2 * q) m4 = Some m5 ->
  merge fuel q (data + 2 * q) (data + 3 * q) (tmp + 2 * q) 0 (2 * q) m5
  = Some m6 ->
  merge fuel (2 * q) tmp (tmp + 2 * q) data 0 (4 * q) m6 = Some m' ->
  (sorted_from data q m m4 /\ sorted_from (data + q) q m m4 /\
   sorted_from (data + 2 * q) q m m4 /\ sorted_from (data + 3 * q) q m m4) /\
  (load_range m5 tmp (2 * q)
   = merge_lists (load_range m4 data q) (load_range m4 (data + q) q) /\
   unchanged_outside tmp (2 * q) m4 m5) /\
  (load_range m6 (tmp + 2 * q) (2 * q)
   = merge_lists (load_range m4 (data + 2 * q) q)
                 (load_range m4 (data + 3 * q) q) /\
   unchanged_outside (tmp + 2 * q) (2 * q) m5 m6) /\
  (load_range m' data (4 * q)
   = merge_lists (load_range m6 tmp (2 * q))
                 (load_range m6 (tmp + 2 * q) (2 * q)) /\
   unchanged_outside data (4 * q) m6 m') /\
  sorted_from data (4 * q) m m' /\
  unchanged_outside2 data tmp (4 * q) m m'.
Proof.
  intros q Hb D [S1 P1] F1 [S2 P2] F2 [S3 P3] F3 [S4 P4] F4 E5 E6 E7.
  pose proof (pow2_pos j) as Hq. fold q in Hq.
  (* the quarters after the four sorts *)
  assert (Q0 : sorted_from data q m m4).
  { unfold sorted_from.
    rewrite (unchanged_outside2_load m3 m4 _ _ data _ q F4) by ranges.
    rewrite (unchanged_outside2_load m2 m3 _ _ data _ q F3) by ranges.
    rewrite (unchanged_outside2_load m1 m2 _ _ data _ q F2) by ranges.
    now split. }
  assert (Q1 : sorted_from (data + q) q m m4).
  { unfold sorted_from.
    rewrite (unchanged_outside2_load m3 m4 _ _ (data + q) _ q F4) by ranges.
    rewrite (unchanged_outside2_load m2 m3 _ _ (data + q) _ q F3) by ranges.
    rewrite <- (unchanged_outside2_load m m1 _ _ (data + q) _ q F1) by ranges.
    now split. }
  assert (Q2 : sorted_from (data + 2 * q) q m m4).
  { unfold sorted_from.
    rewrite (unchanged_outside2_load m3 m4 _ _ (data + 2 * q) _ q F4) by ranges.
    rewrite <- (unchanged_outside2_load m m1 _ _ (data + 2 * q) _ q F1) by ranges.
    rewrite <- (unchanged_outside2_load m1 m2 _ _ (data + 2 * q) _ q F2) by ranges.
    now split. }
  assert (Q3 : sorted_from (data + 3 * q) q m m4).
  { unfold sorted_from.
    rewrite <- (unchanged_outside2_load m m1 _ _ (data + 3 * q) _ q F1) by ranges.
    rewrite <- (unchanged_outside2_load m1 m2 _ _ (data + 3 * q) _ q F2) by ranges.
    rewrite <- (unchanged_outside2_load m2 m3 _ _ (data + 3 * q) _ q F3) by ranges.
    now split. }
  destruct Q0 as [S0' P0'], Q1 as [S1' P1'], Q2 as [S2' P2'], Q3 as [S3' P3'].
  (* the two quarter merges *)
  apply (merge_whole fuel (S j)) in E5;
    [ | lia | reflexivity | now rewrite pow2_S | lia | assumption
      | assumption | ranges | ranges ].
  destruct E5 as [A5 U5].
  apply (merge_whole fuel (S j)) in E6;
    [ | lia | reflexivity | now rewrite pow2_S | lia
      | rewrite (unchanged_outside_load m4 m5 tmp _ (2 * q) q U5) by ranges;
        assumption
      | rewrite (unchanged_outside_load m4 m5 tmp _ (2 * q) q U5) by ranges;
        assumption
      | ranges | ranges ].
  destruct E6 as [A6 U6].
  rewrite !(unchanged_outside_load m4 m5 tmp _ (2 * q) q U5) in A6 by ranges.
  (* the half merge *)
  assert (A5' : load_range m6 tmp (2 * q)
                = merge_lists (load_range m4 data q)
                              (load_range m4 (data + q) q)).
  { rewrite (unchanged_outside_load m5 m6 (tmp + 2 * q) tmp (2 * q) (2 * q) U6)
      by ranges. exact A5. }
  apply (merge_whole fuel (S (S j))) in E7;
    [ | lia | ring | rewrite !pow2_S; fold q; ring | lia
      | rewrite A5'; now apply merge_lists_sorted
      | rewrite A6; now apply merge_lists_sorted
      | ranges | ranges ].
  destruct E7 as [A7 U7].
  repeat split; try assumption.
  - rewrite A7, A5', A6.
    apply merge_lists_sorted; now apply merge_lists_sorted.
  - rewrite A7, A5', A6.
    replace (4 * q) with (q + (q + (q + q))) by ring.
    rewrite !load_range_app by lia.
    rewrite <- merge_lists_perm.
    replace (data + q + q) with (data + 2 * q) by ring.
    replace (data + 2 * q + q) with (data + 3 * q) by ring.
    rewrite app_assoc. apply Permutation_app.
    + rewrite <- merge_lists_perm. now apply Permutation_app.
    + rewrite <- merge_lists_perm. now apply Permutation_app.
  - intros a Hd Ht.
    rewrite U7, U6, U5, F4, F3, F2, F1 by ranges. reflexivity.
Qed.

(** Whenever [multisort] returns on a power-of-two range, [data] holds
    the sorted arrangement of its former content, and no cell outside the
    two buffers has changed. *)
Lemma multisort_spec (fuel : nat) :
  forall (k : nat) data tmp m m',
    4 * 2 ^ Z.of_nat k <= LONG_MAX ->
    disjoint data (2 ^ Z.of_nat k) tmp (2 ^ Z.of_nat k) ->
    multisort fuel (2 ^ Z.of_nat k) data tmp m = Some m' ->
    sorted_from data (2 ^ Z.of_nat k) m m' /\
    unchanged_outside2 data tmp (2 ^ Z.of_nat k) m m'.
Proof.
  induction fuel as [|fuel IH]; intros k data tmp m m' Hb D Hrun;
    [discriminate|].
  pose proof (pow2_pos k) as Hk.
  destruct (wrap64 (MIN_SORT_SIZE cfg * 4) <=? 2 ^ Z.of_nat k) eqn:E.
  - apply Z.leb_le in E.
    destruct (Z_le_gt_dec (wrap64 (MIN_SORT_SIZE cfg * 4)) 0) as [Hneg|Hpos].
    { rewrite (multisort_diverges basicsort basicmerge cfg _ Hneg) in Hrun;
        [discriminate | lia]. }
    destruct (wrap64_mul4 (MIN_SORT_SIZE cfg)) as [c Hc].
    destruct (pow2_ge_4 k c) as [j ->]; [lia | lia |].
    rewrite !pow2_S in *. pose proof (pow2_pos j) as Hj.
    replace (2 * (2 * 2 ^ Z.of_nat j)) with (4 * 2 ^ Z.of_nat j) in * by ring.
    apply multisort_step in Hrun; [|assumption|lia].
    destruct Hrun as (m1 & m2 & m3 & m4 & m5 & m6
                      & E1 & E2 & E3 & E4 & E5 & E6 & E7).
    apply IH in E1; [|lia|ranges]. destruct E1 as [R1 F1].
    apply IH in E2; [|lia|ranges]. destruct E2 as [R2 F2].
    apply IH in E3; [|lia|ranges]. destruct E3 as [R3 F3].
    apply IH in E4; [|lia|ranges]. destruct E4 as [R4 F4].
    eapply multisort_phases; eauto.
  - rewrite multisort_S, E in Hrun. injection Hrun as <-.
    destruct (basicsort_ok (2 ^ Z.of_nat k) data m) as (HS & HP & HU);
      [lia|].
    split; [now split|]. intros a Ha _. now apply HU.
Qed.

End Functional.

(** ** The sequential base cases meet their contracts *)

Lemma insert_perm (x : Z) (l : list Z) :
  Permutation (x :: l) (Kernels.insert x l).
Proof.
  induction l as [|y l IH]; simpl.
  - reflexivity.
  - destruct (x <=? y); [reflexivity|].
    rewrite perm_swap. now constructor.
Qed.

Lemma insertion_sort_perm (l : list Z) :
  Permutation l (Kernels.insertion_sort l).
Proof.
  induction l as [|x l IH]; simpl.
  - constructor.
  - rewrite <- insert_perm. now constructor.
Qed.

Lemma insert_sorted (x : Z) (l : list Z) :
  Sorted Z.le l -> Sorted Z.le (Kernels.insert x l).
Proof.
  induction l as [|y l IH]; simpl; intros HS.
  - repeat constructor.
  - destruct (x <=? y) eqn:E.
    + apply Z.leb_le in E. constructor; [assumption | now constructor].
    + apply Z.leb_gt in E. inversion HS as [|? ? HS' Hd]; subst.
      constructor; [now apply IH|].
      destruct l as [|z l]; simpl.
      * constructor. lia.
      * inversion Hd; subst. destruct (x <=? z); constructor; lia.
Qed.

Lemma insertion_sort_sorted (l : list Z) :
  Sorted Z.le (Kernels.insertion_sort l).
Proof.
  induction l as [|x l IH]; simpl.
  - constructor.
  - now apply insert_sorted.
Qed.

Lemma kernels_basicsort_ok : basicsort_contract Kernels.basicsort.
Proof.
  intros n data m Hn. unfold Kernels.basicsort.
  assert (Hlen : n = Z.of_nat
            (List.length (Kernels.insertion_sort (load_range m data n)))).
  { rewrite <- (Permutation_length (insertion_sort_perm _)),
      load_range_length. lia. }
  rewrite load_store_range by assumption. repeat split.
  - apply insertion_sort_sorted.
  - apply insertion_sort_perm.
  - apply store_range_outside. lia.
Qed.

Lemma kernels_basicmerge_ok : basicmerge_contract Kernels.basicmerge.
Proof.
  intros n left right result start len m Hn Hs Hl Hend _ _ _ _.
  unfold Kernels.basicmerge.
  assert (Hlen : List.length
            (sublist start len
               (merge_lists (load_range m left n) (load_range m right n)))
          = Z.to_nat len).
  { apply sublist_length; try assumption.
    rewrite merge_lists_length, !load_range_length. lia. }
  split.
  - apply load_store_range. lia.
  - apply store_range_outside. lia.
Qed.

(** ** Sortedness, element by element *)

Lemma sorted_nth (l : list Z) :
  Sorted Z.le l ->
  forall i, (S i < List.length l)%nat -> nth i l 0 <= nth (S i) l 0.
Proof.
  induction 1 as [|a l HS IH Hd]; intros i Hi; simpl in Hi.
  - lia.
  - destruct i as [|i].
    + destruct l as [|b l]; simpl in *; [lia|]. now inversion Hd.
    + change (nth i l 0 <= nth (S i) l 0). apply IH. lia.
Qed.

Lemma sorted_load_adjacent (m : mem) (p : ptr) (n : Z) :
  Sorted Z.le (load_range m p n) ->
  forall i, 0 <= i < n - 1 -> m (p + i) <= m (p + i + 1).
Proof.
  intros HS i Hi.
  pose proof (sorted_nth _ HS (Z.to_nat i)) as H.
  rewrite load_range_length in H.
  rewrite !load_range_nth in H by lia.
  replace (p + i + 1) with (p + Z.of_nat (S (Z.to_nat i))) by lia.
  replace (p + i) with (p + Z.of_nat (Z.to_nat i)) at 1 by lia.
  apply H. lia.
Qed.

(** On a sorted range the scan of [check_sorted] finds nothing. *)
Lemma check_sorted_zero (m : mem) (p : ptr) (n : Z) :
  n <= INT_MAX ->
  Sorted Z.le (load_range m p n) -> check_sorted n p m = 0.
Proof.
  intros _ HS. unfold check_sorted.
  assert (Hnil : forall l : list Z,
             (forall i, In i l -> 1 <= i < n) ->
             filter (fun i => m (p + i - 1) >? m (p + i)) l = []).
  { induction l as [|i l IH]; intros Hl; simpl.
    - reflexivity.
    - pose proof (Hl i (or_introl eq_refl)) as Hi.
      pose proof (sorted_load_adjacent m p n HS (i - 1)) as Hadj.
      replace (p + (i - 1) + 1) with (p + i) in Hadj by ring.
      replace (p + (i - 1)) with (p + i - 1) in Hadj by ring.
      rewrite Z.gtb_ltb.
      replace (m (p + i) <? m (p + i - 1)) with false
        by (symmetry; apply Z.ltb_ge, Hadj; lia).
      apply IH. intros i' Hi'. apply Hl. now right. }
  rewrite Hnil; [reflexivity|].
  intros i Hi. apply in_map_iff in Hi. destruct Hi as (j & <- & Hj).
  apply in_seq in Hj. lia.
Qed.

Lemma valid_thresholds_pos (cfg : config) :
  valid_thresholds cfg ->
  0 < wrap64 (MIN_SORT_SIZE cfg * 4) /\ 0 < wrap64 (MIN_MERGE_SIZE cfg * 2).
Proof.
  intros (Hs & Hs' & Hm & Hm').
  rewrite !wrap64_id by (unfold in_long, LONG_MIN; lia). lia.
Qed.

(** * The properties of the specification *)

Lemma multisort_returns basicsort basicmerge cfg n :
  is_pow2 n -> valid_thresholds cfg ->
  exists fuel0, forall fuel data tmp m,
    (fuel0 <= fuel)%nat ->
    exists m', multisort basicsort basicmerge cfg fuel n data tmp m = Some m'.
Proof.
  intros [k ->] Hv. apply valid_thresholds_pos in Hv. destruct Hv as [Hs Hm].
  exists (k + 2)%nat. intros fuel data tmp m Hf.
  apply multisort_terminates; [assumption | assumption | lia].
Qed.

Lemma multisort_post basicsort basicmerge cfg n data tmp m fuel m' :
  basicsort_contract basicsort -> basicmerge_contract basicmerge ->
  is_pow2 n -> buffer_size_ok n -> disjoint data n tmp n ->
  multisort basicsort basicmerge cfg fuel n data tmp m = Some m' ->
  sorted_from data n m m' /\ unchanged_outside2 data tmp n m m'.
Proof.
  intros Hbs Hbm [k ->] Hb D Hrun. unfold buffer_size_ok in Hb.
  eapply multisort_spec; eauto. lia.
Qed.

(** C1 (sortedness).  For a power of two [n] and disjoint buffers [data] and
    [tmp] of [n] elements, with [basicsort] and [basicmerge] meeting their
    contracts: whenever [multisort(n, data, tmp)] returns,
    [data[i] <= data[i+1]] for all [0 <= i < n-1], so that [check_sorted]
    (for [n <= INT_MAX], the sizes its [int] counter can scan) counts no
    unordered position; and with positive thresholds the call does
    return. *)
Theorem multisort_sorted basicsort basicmerge cfg n data tmp m :
  basicsort_contract basicsort -> basicmerge_contract basicmerge ->
  is_pow2 n -> buffer_size_ok n -> disjoint data n tmp n ->
  (forall fuel m',
      multisort basicsort basicmerge cfg fuel n data tmp m = Some m' ->
      (forall i, 0 <= i < n - 1 -> m' (data + i) <= m' (data + i + 1)) /\
      (n <= INT_MAX -> check_sorted n data m' = 0)) /\
  (valid_thresholds cfg ->
   exists fuel0, forall fuel, (fuel0 <= fuel)%nat ->
     exists m', multisort basicsort basicmerge cfg fuel n data tmp m = Some m').
Proof.
  intros Hbs Hbm Hn Hb D. split.
  - intros fuel m' Hrun.
    destruct (multisort_post _ _ _ _ _ _ _ _ _ Hbs Hbm Hn Hb D Hrun)
      as [[HS _] _].
    split; [now apply sorted_load_adjacent|].
    intros Hint. now apply check_sorted_zero.
  - intros Hv. destruct (multisort_returns basicsort basicmerge cfg n Hn Hv)
      as [fuel0 H].
    exists fuel0. intros fuel Hf. now apply H.
Qed.

Lemma scenario_pow2 : is_pow2 8.
Proof. exists 3%nat. reflexivity. Qed.

Lemma scenario_size : buffer_size_ok 8.
Proof. unfold buffer_size_ok, LONG_MAX. lia. Qed.

Lemma scenario_disjoint : disjoint 0 8 8 8.
Proof. left. lia. Qed.

Lemma scenario_valid : valid_thresholds scenario_config.
Proof. unfold valid_thresholds, LONG_MAX. simpl. lia. Qed.

Lemma multisort_sorted_witness :
  (forall fuel m',
      multisort Kernels.basicsort Kernels.basicmerge scenario_config
        fuel 8 0 8 scenario_mem = Some m' ->
      (forall i, 0 <= i < 8 - 1 -> m' (0 + i) <= m' (0 + i + 1)) /\
      (8 <= INT_MAX -> check_sorted 8 0 m' = 0)) /\
  (exists fuel0, forall fuel, (fuel0 <= fuel)%nat ->
     exists m', multisort Kernels.basicsort Kernels.basicmerge scenario_config
                  fuel 8 0 8 scenario_mem = Some m').
Proof.
  destruct (multisort_sorted Kernels.basicsort Kernels.basicmerge
              scenario_config 8 0 8 scenario_mem
              kernels_basicsort_ok kernels_basicmerge_ok
              scenario_pow2 scenario_size scenario_disjoint) as [Hpost Hret].
  split; [exact Hpost | exact (Hret scenario_valid)].
Defined.

(** C2 (permutation).  Under the same assumptions, whenever
    [multisort(n, data, tmp)] returns, every value occurs in [data[0..n)] as
    many times as before the call; and with positive thresholds the call
    does return. *)
Theorem multisort_permutation basicsort basicmerge cfg n data tmp m :
  basicsort_contract basicsort -> basicmerge_contract basicmerge ->
  is_pow2 n -> buffer_size_ok n -> disjoint data n tmp n ->
  (forall fuel m',
      multisort basicsort basicmerge cfg fuel n data tmp m = Some m' ->
      Permutation (load_range m data n) (load_range m' data n) /\
      forall v, count_occ Z.eq_dec (load_range m' data n) v
                = count_occ Z.eq_dec (load_range m data n) v) /\
  (valid_thresholds cfg ->
   exists fuel0, forall fuel, (fuel0 <= fuel)%nat ->
     exists m', multisort basicsort basicmerge cfg fuel n data tmp m = Some m').
Proof.
  intros Hbs Hbm Hn Hb D. split.
  - intros fuel m' Hrun.
    destruct (multisort_post _ _ _ _ _ _ _ _ _ Hbs Hbm Hn Hb D Hrun)
      as [[_ HP] _].
    split; [assumption|]. intros v. symmetry.
    now apply Permutation_count_occ.
  - intros Hv. destruct (multisort_returns basicsort basicmerge cfg n Hn Hv)
      as [fuel0 H].
    exists fuel0. intros fuel Hf. now apply H.
Qed.

Lemma multisort_permutation_witness :
  (forall fuel m',
      multisort Kernels.basicsort Kernels.basicmerge scenario_config
        fuel 8 0 8 scenario_mem = Some m' ->
      Permutation (load_range scenario_mem 0 8) (load_range m' 0 8) /\
      forall v, count_occ Z.eq_dec (load_range m' 0 8) v
                = count_occ Z.eq_dec (load_range scenario_mem 0 8) v) /\
  (exists fuel0, forall fuel, (fuel0 <= fuel)%nat ->
     exists m', multisort Kernels.basicsort Kernels.basicmerge scenario_config
                  fuel 8 0 8 scenario_mem = Some m').
Proof.
  destruct (multisort_permutation Kernels.basicsort Kernels.basicmerge
              scenario_config 8 0 8 scenario_mem
              kernels_basicsort_ok kernels_basicmerge_ok
              scenario_pow2 scenario_size scenario_disjoint) as [Hpost Hret].
  split; [exact Hpost | exact (Hret scenario_valid)].
Defined.

(** C3 (merge).  For sorted [left[0..n)] and [right[0..n)], a destination
    [result[0..2n)] that overlaps neither, and a slice
    [start, start+length) of the output with [length] a power of two, with
    [basicmerge] meeting its contract: whenever
    [merge(n, left, right, result, start, length)] returns,
    [result[start..start+length)] holds that slice of the merged sequence
    and no other cell has changed; the merged sequence is sorted, holds the
    elements of both inputs, and is stable (among equal values, those of
    [left] come before those of [right]); and with a positive merge
    threshold the call does return. *)
Theorem merge_correct basicmerge cfg (k : nat) n left right result start m :
  basicmerge_contract basicmerge ->
  0 <= n -> 2 * n <= LONG_MAX ->
  0 <= start -> start + 2 ^ Z.of_nat k <= 2 * n ->
  Sorted Z.le (load_range m left n) ->
  Sorted Z.le (load_range m right n) ->
  disjoint result (2 * n) left n ->
  disjoint result (2 * n) right n ->
  let L := load_range m left n in
  let R := load_range m right n in
  let len := 2 ^ Z.of_nat k in
  (forall fuel m',
      merge basicmerge cfg fuel n left right result start len m = Some m' ->
      load_range m' (result + start) len = sublist start len (merge_lists L R) /\
      unchanged_outside (result + start) len m m') /\
  (Sorted Z.le (merge_lists L R) /\ Permutation (L ++ R) (merge_lists L R)) /\
  (map fst (merge_tagged L R) = merge_lists L R /\
   forall (i j : nat) (v : Z),
     nth_error (merge_tagged L R) i = Some (v, FromRight) ->
     nth_error (merge_tagged L R) j = Some (v, FromLeft) ->
     (j < i)%nat) /\
  (0 < MIN_MERGE_SIZE cfg -> MIN_MERGE_SIZE cfg * 2 <= LONG_MAX ->
   exists fuel0, forall fuel, (fuel0 <= fuel)%nat ->
     exists m', merge basicmerge cfg fuel n left right result start len m
                = Some m').
Proof.
  intros Hbm Hn Hn2 Hs Hend HL HR DL DR L R len.
  split; [|split; [|split]].
  - intros fuel m' Hrun. eapply merge_spec; eauto.
  - split; [now apply merge_lists_sorted | apply merge_lists_perm].
  - split; [apply merge_tagged_values | now apply merge_tagged_stable].
  - intros Hm Hm2. exists (S k). intros fuel Hf.
    apply merge_terminates; [|lia].
    rewrite wrap64_id by (unfold in_long, LONG_MIN; lia). lia.
Qed.

(** Two sorted runs with equal values on both sides, [left] at address 0,
    [right] at address 4, [result] at address 8. *)
Lemma merge_correct_witness :
  let m := store_range 0 [1; 3; 3; 7; 2; 3; 3; 9] (fun _ => 0) in
  (forall fuel m',
      merge Kernels.basicmerge scenario_config fuel 4 0 4 8 4 4 m = Some m' ->
      load_range m' (8 + 4) 4 = [3; 3; 7; 9] /\
      unchanged_outside (8 + 4) 4 m m') /\
  (exists fuel0, forall fuel, (fuel0 <= fuel)%nat ->
     exists m', merge Kernels.basicmerge scenario_config fuel 4 0 4 8 4 4 m
                = Some m').
Proof.
  intros m.
  assert (HL : Sorted Z.le (load_range m 0 4))
    by (vm_compute; repeat constructor; discriminate).
  assert (HR : Sorted Z.le (load_range m 4 4))
    by (vm_compute; repeat constructor; discriminate).
  destruct (merge_correct Kernels.basicmerge scenario_config 2 4 0 4 8 4 m
              kernels_basicmerge_ok) as (Hpost & _ & _ & Hret);
    try assumption; try (unfold LONG_MAX; simpl; lia);
    try (right; lia).
  split.
  - exact Hpost.
  - apply Hret; unfold LONG_MAX; simpl; lia.
Defined.

Lemma quot_4q_4 (q : Z) : 4 * q ÷ 4 = q.
Proof. rewrite Z.mul_comm. apply Z.quot_mul. lia. Qed.

Lemma quot_4q_2 (q : Z) : 4 * q ÷ 2 = 2 * q.
Proof.
  replace (4 * q) with (2 * q * 2) by ring. apply Z.quot_mul. lia.
Qed.

(** C4 (buffer roles).  In an invocation [multisort(n, data, tmp)] with
    [n >= 4*MIN_SORT_SIZE] that returns: the four recursive calls leave the
    four quarters of [data] sorted; the two quarter merges change nothing
    but [tmp[0..n)], whose halves then hold the merges of the quarters of
    [data]; the half merge changes nothing but [data[0..n)], which then
    holds the merge of the two halves of [tmp]; so the sorted output is in
    [data].  With a positive merge threshold the invocation does return. *)
Theorem multisort_buffer_roles basicsort basicmerge cfg n data tmp m :
  basicsort_contract basicsort -> basicmerge_contract basicmerge ->
  is_pow2 n -> buffer_size_ok n -> disjoint data n tmp n ->
  0 < MIN_SORT_SIZE cfg -> 4 * MIN_SORT_SIZE cfg <= n ->
  let q := n ÷ 4 in
  let h := n ÷ 2 in
  (forall fuel m',
      multisort basicsort basicmerge cfg fuel n data tmp m = Some m' ->
      exists fuel' m1 m2 m3 m4 m5 m6,
        fuel = S fuel' /\
        (* the four quarters are sorted within data *)
        (multisort basicsort basicmerge cfg fuel' q data tmp m = Some m1 /\
         multisort basicsort basicmerge cfg fuel' q (data + q) (tmp + q) m1
         = Some m2 /\
         multisort basicsort basicmerge cfg fuel' q (data + h) (tmp + h) m2
         = Some m3 /\
         multisort basicsort basicmerge cfg fuel' q
           (data + 3 * q) (tmp + 3 * q) m3 = Some m4 /\
         sorted_from data q m m4 /\ sorted_from (data + q) q m m4 /\
         sorted_from (data + h) q m m4 /\ sorted_from (data + 3 * q) q m m4) /\
        (* the quarter merges read data and write tmp *)
        (merge basicmerge cfg fuel' q data (data + q) tmp 0 h m4 = Some m5 /\
         merge basicmerge cfg fuel' q (data + h) (data + 3 * q) (tmp + h) 0 h m5
         = Some m6 /\
         unchanged_outside tmp n m4 m6 /\
         load_range m6 tmp h
         = merge_lists (load_range m4 data q) (load_range m4 (data + q) q) /\
         load_range m6 (tmp + h) h
         = merge_lists (load_range m4 (data + h) q)
                       (load_range m4 (data + 3 * q) q)) /\
        (* the half merge reads tmp and writes data *)
        (merge basicmerge cfg fuel' h tmp (tmp + h) data 0 n m6 = Some m' /\
         unchanged_outside data n m6 m' /\
         load_range m' data n
         = merge_lists (load_range m6 tmp h) (load_range m6 (tmp + h) h)) /\
        (* the output is in data *)
        sorted_from data n m m') /\
  (0 < MIN_MERGE_SIZE cfg -> MIN_MERGE_SIZE cfg * 2 <= LONG_MAX ->
   exists fuel0, forall fuel, (fuel0 <= fuel)%nat ->
     exists m', multisort basicsort basicmerge cfg fuel n data tmp m = Some m').
Proof.
  intros Hbs Hbm [k ->] Hb D Hs Hge q h. unfold buffer_size_ok in Hb.
  assert (Hw : wrap64 (MIN_SORT_SIZE cfg * 4) = 4 * MIN_SORT_SIZE cfg).
  { rewrite wrap64_id by (unfold in_long, LONG_MIN; lia). ring. }
  destruct (pow2_ge_4 k (MIN_SORT_SIZE cfg)) as [j ->]; [lia | lia |].
  subst q h. rewrite !pow2_S in *. pose proof (pow2_pos j) as Hj.
  replace (2 * (2 * 2 ^ Z.of_nat j)) with (4 * 2 ^ Z.of_nat j) in * by ring.
  rewrite quot_4q_4, quot_4q_2. split.
  - intros fuel m' Hrun. destruct fuel as [|fuel]; [discriminate|].
    apply multisort_step in Hrun; [|lia|lia].
    destruct Hrun as (m1 & m2 & m3 & m4 & m5 & m6
                      & E1 & E2 & E3 & E4 & E5 & E6 & E7).
    exists fuel, m1, m2, m3, m4, m5, m6.
    pose proof E1 as R1. pose proof E2 as R2.
    pose proof E3 as R3. pose proof E4 as R4.
    apply (multisort_spec _ _ _ Hbs Hbm) in R1; [|lia|ranges].
    apply (multisort_spec _ _ _ Hbs Hbm) in R2; [|lia|ranges].
    apply (multisort_spec _ _ _ Hbs Hbm) in R3; [|lia|ranges].
    apply (multisort_spec _ _ _ Hbs Hbm) in R4; [|lia|ranges].
    destruct R1 as [R1 F1], R2 as [R2 F2], R3 as [R3 F3], R4 as [R4 F4].
    destruct (multisort_phases basicmerge cfg Hbm fuel j
                data tmp m m1 m2 m3 m4 m5 m6 m')
      as ((Q0 & Q1 & Q2 & Q3) & (A5 & U5) & (A6 & U6) & (A7 & U7) & HS & _);
      try assumption; try lia.
    assert (A5' : load_range m6 tmp (2 * 2 ^ Z.of_nat j)
                  = merge_lists (load_range m4 data (2 ^ Z.of_nat j))
                      (load_range m4 (data + 2 ^ Z.of_nat j)
                         (2 ^ Z.of_nat j))).
    { rewrite (unchanged_outside_load m5 m6 _ tmp _ (2 * 2 ^ Z.of_nat j) U6)
        by ranges.
      exact A5. }
    assert (U56 : unchanged_outside tmp (4 * 2 ^ Z.of_nat j) m4 m6).
    { intros a Ha. rewrite U6, U5 by ranges. reflexivity. }
    split; [reflexivity|].
    split; [repeat (split; [assumption|]); assumption|].
    split; [repeat (split; [assumption|]); assumption|].
    split; [repeat (split; [assumption|]); assumption|].
    assumption.
  - intros Hm Hm2.
    destruct (multisort_returns basicsort basicmerge cfg
                (4 * 2 ^ Z.of_nat j)) as [fuel0 H].
    + exists (S (S j)). rewrite !pow2_S. ring.
    + unfold valid_thresholds. lia.
    + exists fuel0. intros fuel Hf. now apply H.
Qed.

Lemma multisort_buffer_roles_witness :
  exists m',
    multisort Kernels.basicsort Kernels.basicmerge scenario_config
      5 8 0 8 scenario_mem = Some m' /\
    sorted_from 0 8 scenario_mem m' /\
    load_range m' 8 8 = [1; 3; 5; 8; 2; 4; 7; 9].
Proof.
  destruct (multisort_buffer_roles Kernels.basicsort Kernels.basicmerge
              scenario_config 8 0 8 scenario_mem
              kernels_basicsort_ok kernels_basicmerge_ok
              scenario_pow2 scenario_size scenario_disjoint)
    as [Hpost _]; [simpl; lia | simpl; lia |].
  destruct (multisort Kernels.basicsort Kernels.basicmerge scenario_config
              5 8 0 8 scenario_mem) as [m'|] eqn:E;
    [|vm_compute in E; discriminate].
  exists m'. split; [reflexivity|].
  destruct (Hpost _ _ E)
    as (fuel' & m1 & m2 & m3 & m4 & m5 & m6 & _ & _ & _ & _ & HS).
  split; [exact HS|].
  injection E as <-. vm_compute. reflexivity.
Defined.

(** C5 (base case).  For [0 <= n < 4*MIN_SORT_SIZE], [multisort(n, data,
    tmp)] is the call [basicsort(n, data)], whatever [tmp] is: it sorts
    [data[0..n)] in place, changes no cell outside that range, so [tmp]
    keeps its content, and the content [data] ends with depends on nothing
    but the content it started with. *)
Theorem multisort_base_case basicsort basicmerge cfg n data tmp m fuel :
  basicsort_contract basicsort ->
  in_long (MIN_SORT_SIZE cfg * 4) ->
  0 <= n -> n < 4 * MIN_SORT_SIZE cfg ->
  disjoint data n tmp n ->
  let m' := basicsort n data m in
  multisort basicsort basicmerge cfg (S fuel) n data tmp m = Some m' /\
  (forall tmp2,
      multisort basicsort basicmerge cfg (S fuel) n data tmp2 m = Some m') /\
  sorted_from data n m m' /\
  unchanged_outside data n m m' /\
  load_range m' tmp n = load_range m tmp n /\
  (forall m2, load_range m2 data n = load_range m data n ->
              load_range (basicsort n data m2) data n = load_range m' data n).
Proof.
  intros Hbs Hin Hn Hlt D m'.
  assert (E : forall t,
             multisort basicsort basicmerge cfg (S fuel) n data t m = Some m').
  { intros t. rewrite multisort_S, wrap64_id by assumption.
    replace (_ <=? n) with false by (symmetry; apply Z.leb_gt; lia).
    reflexivity. }
  destruct (Hbs n data m Hn) as (HS & HP & HU). fold m' in HS, HP, HU.
  repeat split; auto.
  - apply (unchanged_outside_load m m' data tmp n n HU D).
  - intros m2 Hm2. destruct (Hbs n data m2 Hn) as (HS2 & HP2 & _).
    apply sorted_perm_unique; try assumption.
    rewrite <- HP2, Hm2. exact HP.
Qed.

Lemma multisort_base_case_witness :
  let m' := Kernels.basicsort 4 0 scenario_mem in
  multisort Kernels.basicsort Kernels.basicmerge scenario_config
    1 4 0 8 scenario_mem = Some m' /\
  load_range m' 0 4 = [1; 3; 5; 8] /\
  load_range m' 8 4 = load_range scenario_mem 8 4.
Proof.
  destruct (multisort_base_case Kernels.basicsort Kernels.basicmerge
              scenario_config 4 0 8 scenario_mem 0 kernels_basicsort_ok)
    as (E & _ & _ & _ & HT & _).
  - unfold in_long, LONG_MIN, LONG_MAX. simpl. lia.
  - lia.
  - simpl. lia.
  - left. lia.
  - intros m'. split; [exact E|]. split; [reflexivity | exact HT].
Defined.

(** What [data] holds after a run is fixed by what it held before. *)
Lemma multisort_deterministic basicsort basicmerge cfg1 cfg2 n data tmp m
  fuel1 fuel2 m1 m2 :
  basicsort_contract basicsort -> basicmerge_contract basicmerge ->
  is_pow2 n -> buffer_size_ok n -> disjoint data n tmp n ->
  multisort basicsort basicmerge cfg1 fuel1 n data tmp m = Some m1 ->
  multisort basicsort basicmerge cfg2 fuel2 n data tmp m = Some m2 ->
  load_range m1 data n = load_range m2 data n.
Proof.
  intros Hbs Hbm Hn Hb D E1 E2.
  destruct (multisort_post _ _ _ _ _ _ _ _ _ Hbs Hbm Hn Hb D E1)
    as [[S1 P1] _].
  destruct (multisort_post _ _ _ _ _ _ _ _ _ Hbs Hbm Hn Hb D E2)
    as [[S2 P2] _].
  apply sorted_perm_unique; try assumption.
  now rewrite <- P1, <- P2.
Qed.

(** C6 (threshold invariance).  For one input of power-of-two size, two
    runs under any two configurations that both return leave the same
    content in [data]; and under configurations with positive thresholds
    both runs do return. *)
Theorem threshold_invariance basicsort basicmerge cfg1 cfg2 n data tmp m :
  basicsort_contract basicsort -> basicmerge_contract basicmerge ->
  is_pow2 n -> buffer_size_ok n -> disjoint data n tmp n ->
  (forall fuel1 fuel2 m1 m2,
      multisort basicsort basicmerge cfg1 fuel1 n data tmp m = Some m1 ->
      multisort basicsort basicmerge cfg2 fuel2 n data tmp m = Some m2 ->
      load_range m1 data n = load_range m2 data n) /\
  (valid_thresholds cfg1 -> valid_thresholds cfg2 ->
   exists fuel0, forall fuel, (fuel0 <= fuel)%nat ->
     exists m1 m2,
       multisort basicsort basicmerge cfg1 fuel n data tmp m = Some m1 /\
       multisort basicsort basicmerge cfg2 fuel n data tmp m = Some m2).
Proof.
  intros Hbs Hbm Hn Hb D. split.
  - intros fuel1 fuel2 m1 m2 E1 E2.
    eapply multisort_deterministic; eauto.
  - intros V1 V2.
    destruct (multisort_returns basicsort basicmerge cfg1 n Hn V1) as [f1 H1].
    destruct (multisort_returns basicsort basicmerge cfg2 n Hn V2) as [f2 H2].
    exists (Nat.max f1 f2). intros fuel Hf.
    destruct (H1 fuel data tmp m) as [m1 E1]; [lia|].
    destruct (H2 fuel data tmp m) as [m2 E2]; [lia|].
    eauto.
Qed.

(** The scenario under thresholds 2/2 and under thresholds 1/4, with two
    depths of [CUTOFF]. *)
Lemma threshold_invariance_witness :
  let cfg2 := {| N := 8; MIN_SORT_SIZE := 1; MIN_MERGE_SIZE := 4;
                 CUTOFF := 0 |} in
  (forall fuel1 fuel2 m1 m2,
      multisort Kernels.basicsort Kernels.basicmerge scenario_config
        fuel1 8 0 8 scenario_mem = Some m1 ->
      multisort Kernels.basicsort Kernels.basicmerge cfg2
        fuel2 8 0 8 scenario_mem = Some m2 ->
      load_range m1 0 8 = load_range m2 0 8) /\
  (exists fuel0, forall fuel, (fuel0 <= fuel)%nat ->
     exists m1 m2,
       multisort Kernels.basicsort Kernels.basicmerge scenario_config
         fuel 8 0 8 scenario_mem = Some m1 /\
       multisort Kernels.basicsort Kernels.basicmerge cfg2
         fuel 8 0 8 scenario_mem = Some m2).
Proof.
  intros cfg2.
  destruct (threshold_invariance Kernels.basicsort Kernels.basicmerge
              scenario_config cfg2 8 0 8 scenario_mem
              kernels_basicsort_ok kernels_basicmerge_ok
              scenario_pow2 scenario_size scenario_disjoint) as [Hpost Hret].
  split; [exact Hpost|]. apply Hret.
  - exact scenario_valid.
  - unfold valid_thresholds, LONG_MAX. simpl. lia.
Defined.

(** C7 (idempotence).  When [data[0..n)] is already in non-decreasing
    order, a call of [multisort(n, data, tmp)] that returns leaves the
    content of [data] as it was; and with positive thresholds the call does
    return. *)
Theorem multisort_idempotent basicsort basicmerge cfg n data tmp m :
  basicsort_contract basicsort -> basicmerge_contract basicmerge ->
  is_pow2 n -> buffer_size_ok n -> disjoint data n tmp n ->
  Sorted Z.le (load_range m data n) ->
  (forall fuel m',
      multisort basicsort basicmerge cfg fuel n data tmp m = Some m' ->
      load_range m' data n = load_range m data n) /\
  (valid_thresholds cfg ->
   exists fuel0, forall fuel, (fuel0 <= fuel)%nat ->
     exists m', multisort basicsort basicmerge cfg fuel n data tmp m = Some m').
Proof.
  intros Hbs Hbm Hn Hb D HS. split.
  - intros fuel m' Hrun.
    destruct (multisort_post _ _ _ _ _ _ _ _ _ Hbs Hbm Hn Hb D Hrun)
      as [[HS' HP] _].
    apply sorted_perm_unique; try assumption. now symmetry.
  - intros Hv. destruct (multisort_returns basicsort basicmerge cfg n Hn Hv)
      as [fuel0 H].
    exists fuel0. intros fuel Hf. now apply H.
Qed.

Lemma multisort_idempotent_witness :
  let m := store_range 0 scenario_output (fun _ => 0) in
  (forall fuel m',
      multisort Kernels.basicsort Kernels.basicmerge scenario_config
        fuel 8 0 8 m = Some m' ->
      load_range m' 0 8 = scenario_output) /\
  (exists fuel0, forall fuel, (fuel0 <= fuel)%nat ->
     exists m', multisort Kernels.basicsort Kernels.basicmerge scenario_config
                  fuel 8 0 8 m = Some m').
Proof.
  intros m.
  destruct (multisort_idempotent Kernels.basicsort Kernels.basicmerge
              scenario_config 8 0 8 m
              kernels_basicsort_ok kernels_basicmerge_ok
              scenario_pow2 scenario_size scenario_disjoint) as [Hpost Hret].
  - vm_compute. repeat constructor; discriminate.
  - split; [exact Hpost | exact (Hret scenario_valid)].
Defined.

(** C9 (scenario).  With [N = 8], [data = [5,3,8,1,9,2,7,4]] and both
    thresholds 2, [multisort(8, data, tmp)] returns and leaves
    [data = [1,2,3,4,5,7,8,9]], for any [basicsort] and [basicmerge] that
    meet their contracts. *)
Theorem scenario_sorted basicsort basicmerge data tmp m :
  basicsort_contract basicsort -> basicmerge_contract basicmerge ->
  disjoint data 8 tmp 8 ->
  load_range m data 8 = scenario_input ->
  (forall fuel m',
      multisort basicsort basicmerge scenario_config fuel 8 data tmp m
      = Some m' ->
      load_range m' data 8 = scenario_output) /\
  (forall fuel, (5 <= fuel)%nat ->
     exists m',
       multisort basicsort basicmerge scenario_config fuel 8 data tmp m
       = Some m').
Proof.
  intros Hbs Hbm D Hin. split.
  - intros fuel m' Hrun.
    destruct (multisort_post _ _ _ _ _ _ _ _ _ Hbs Hbm
                scenario_pow2 scenario_size D Hrun) as [[HS HP] _].
    apply sorted_perm_unique.
    + exact HS.
    + unfold scenario_output. repeat constructor; discriminate.
    + rewrite <- HP, Hin.
      change scenario_output with (Kernels.insertion_sort scenario_input).
      apply insertion_sort_perm.
  - intros fuel Hf.
    destruct (valid_thresholds_pos _ scenario_valid) as [Hs Hm].
    apply (multisort_terminates basicsort basicmerge scenario_config
             fuel Hs Hm 3 data tmp m).
    lia.
Qed.

Lemma scenario_sorted_witness :
  (forall fuel m',
      multisort Kernels.basicsort Kernels.basicmerge scenario_config
        fuel 8 0 8 scenario_mem = Some m' ->
      load_range m' 0 8 = scenario_output) /\
  option_map (fun m' => load_range m' 0 8)
    (multisort Kernels.basicsort Kernels.basicmerge scenario_config
       5 8 0 8 scenario_mem)
  = Some scenario_output.
Proof.
  destruct (scenario_sorted Kernels.basicsort Kernels.basicmerge
              0 8 scenario_mem kernels_basicsort_ok kernels_basicmerge_ok
              scenario_disjoint) as [Hpost Hret].
  - reflexivity.
  - split; [exact Hpost|].
    destruct (Hret 5%nat (le_n 5)) as [m' E].
    rewrite E. simpl. f_equal. exact (Hpost _ _ E).
Defined.

(** C10 ([CUTOFF] is not consulted).  The option [-c] stores its value in
    [CUTOFF] and [main] prints it, but [merge] and [multisort] compute the
    same result whatever [CUTOFF] is; so two runs of [main] whose
    configurations differ in [CUTOFF] only end with the same memory. *)
Theorem cutoff_not_consulted basicsort basicmerge :
  (forall v rest cfg,
      process_args true ("-c"%string :: v :: rest) cfg
      = process_args true rest (set_cutoff (atoi v) cfg)) /\
  (forall c cfg fuel n left right result start len m,
      merge basicmerge (set_cutoff c cfg) fuel n left right result start len m
      = merge basicmerge cfg fuel n left right result start len m) /\
  (forall c cfg fuel n data tmp m,
      multisort basicsort basicmerge (set_cutoff c cfg) fuel n data tmp m
      = multisort basicsort basicmerge cfg fuel n data tmp m) /\
  (forall fuel argv1 argv2 cfg1 cfg2 rnd data tmp m,
      process_args true (tl argv1) default_config = ArgsOk cfg1 ->
      process_args true (tl argv2) default_config = ArgsOk cfg2 ->
      cfg2 = set_cutoff (CUTOFF cfg2) cfg1 ->
      match main basicsort basicmerge fuel true argv1 rnd data tmp m,
            main basicsort basicmerge fuel true argv2 rnd data tmp m with
      | Exit0 _ out1 m1, Exit0 _ out2 m2 =>
          m1 = m2 /\
          In (PrintCutoff (CUTOFF cfg1)) out1 /\
          In (PrintCutoff (CUTOFF cfg2)) out2
      | NoReturn, NoReturn => True
      | _, _ => False
      end).
Proof.
  assert (Hmerge : forall c cfg fuel n left right result start len m,
      merge basicmerge (set_cutoff c cfg) fuel n left right result start len m
      = merge basicmerge cfg fuel n left right result start len m).
  { intros c cfg fuel. induction fuel as [|fuel IH]; intros; [reflexivity|].
    rewrite !merge_S. simpl MIN_MERGE_SIZE.
    destruct (_ <? _); [reflexivity|].
    rewrite IH. destruct (merge basicmerge cfg fuel _ _ _ _ _ _ _);
      [apply IH | reflexivity]. }
  assert (Hsort : forall c cfg fuel n data tmp m,
      multisort basicsort basicmerge (set_cutoff c cfg) fuel n data tmp m
      = multisort basicsort basicmerge cfg fuel n data tmp m).
  { intros c cfg fuel. induction fuel as [|fuel IH]; intros; [reflexivity|].
    rewrite !multisort_S. simpl MIN_SORT_SIZE.
    destruct (_ <=? _); [|reflexivity].
    repeat (rewrite ?IH, ?Hmerge;
            match goal with
            | |- bind ?x _ = bind ?x _ =>
                destruct x; [cbn [bind]|reflexivity]
            end).
    apply Hmerge. }
  split; [reflexivity|]. split; [exact Hmerge|]. split; [exact Hsort|].
  intros fuel argv1 argv2 cfg1 cfg2 rnd data tmp m E1 E2 Hc.
  unfold main. rewrite E1, E2, Hc, Hsort. simpl.
  destruct (multisort _ _ _ _ _ _ _ _); [|exact I].
  split; [reflexivity|]. split; right; left; reflexivity.
Qed.

Lemma cutoff_not_consulted_witness :
  let argv1 := ["multisort"; "-n"; "1"; "-c"; "2"]%string in
  let argv2 := ["multisort"; "-n"; "1"; "-c"; "5"]%string in
  match main Kernels.basicsort Kernels.basicmerge 30 true argv1 7 0 1024
          (fun _ => 0),
        main Kernels.basicsort Kernels.basicmerge 30 true argv2 7 0 1024
          (fun _ => 0) with
  | Exit0 _ out1 m1, Exit0 _ out2 m2 =>
      m1 = m2 /\ In (PrintCutoff 2) out1 /\ In (PrintCutoff 5) out2
  | NoReturn, NoReturn => True
  | _, _ => False
  end.
Proof.
  intros argv1 argv2.
  exact (proj2 (proj2 (proj2
           (cutoff_not_consulted Kernels.basicsort Kernels.basicmerge)))
           30%nat argv1 argv2
           {| N := 1024; MIN_SORT_SIZE := 1024; MIN_MERGE_SIZE := 1024;
              CUTOFF := 2 |}
           {| N := 1024; MIN_SORT_SIZE := 1024; MIN_MERGE_SIZE := 1024;
              CUTOFF := 5 |}
           7 0 1024 (fun _ => 0) eq_refl eq_refl eq_refl).
Defined.

(** ** The driver *)

Lemma main_exit_failure basicsort basicmerge fuel openmp argv rnd data tmp m :
  main basicsort basicmerge fuel openmp argv rnd data tmp m = ExitFailure <->
  process_args openmp (tl argv) default_config = ArgsUsage.
Proof.
  unfold main. destruct (process_args openmp (tl argv) default_config).
  - destruct (multisort _ _ _ _ _ _ _ _); split; discriminate.
  - split; reflexivity.
  - split; discriminate.
Qed.

Lemma not_pow2_3 : ~ is_pow2 3.
Proof.
  intros [k H]. destruct k as [|[|k]].
  - discriminate.
  - discriminate.
  - rewrite !pow2_S in H. pose proof (pow2_pos k). lia.
Qed.

(** The loop reads the command line a word at a time, and two words at an
    option. *)
Lemma process_args_cons (openmp : bool) (a : string) (rest : list string)
  (cfg : config) :
  process_args openmp (a :: rest) cfg =
  match set_option openmp a, rest with
  | None, _ => ArgsUsage
  | Some _, [] => ArgsNull
  | Some upd, v :: rest' => process_args openmp rest' (upd v cfg)
  end.
Proof.
  cbn [process_args]. unfold set_option.
  destruct (String.eqb a "-n"); [destruct rest; reflexivity|].
  destruct (String.eqb a "-s"); [destruct rest; reflexivity|].
  destruct (String.eqb a "-m"); [destruct rest; reflexivity|].
  destruct (openmp && String.eqb a "-c"); [destruct rest; reflexivity|].
  reflexivity.
Qed.

Lemma list_pair_ind {A : Type} (P : list A -> Prop) :
  P [] -> (forall a, P [a]) ->
  (forall a v rest, P rest -> P (a :: v :: rest)) ->
  forall l, P l.
Proof.
  intros H0 H1 H2 l.
  enough (H : P l /\ forall a, P (a :: l)) by apply H.
  induction l as [|v l [IHl IHc]].
  - split; [exact H0 | exact H1].
  - split; [apply IHc|]. intros a. apply H2, IHl.
Qed.

Lemma set_option_none (openmp : bool) (a : string) :
  set_option openmp a = None <-> ~ is_option openmp a.
Proof.
  unfold set_option, is_option.
  destruct (String.eqb a "-n") eqn:En.
  { apply String.eqb_eq in En. split; [discriminate | intros H; tauto]. }
  destruct (String.eqb a "-s") eqn:Es.
  { apply String.eqb_eq in Es. split; [discriminate | intros H; tauto]. }
  destruct (String.eqb a "-m") eqn:Em.
  { apply String.eqb_eq in Em. split; [discriminate | intros H; tauto]. }
  apply String.eqb_neq in En, Es, Em.
  destruct openmp; simpl.
  - destruct (String.eqb a "-c") eqn:Ec.
    + apply String.eqb_eq in Ec. split; [discriminate | intros H; tauto].
    + apply String.eqb_neq in Ec. split; [intros _; tauto | reflexivity].
  - split; [intros _ [H | [H | [H | [H _]]]]; congruence | reflexivity].
Qed.

(** The loop goes on after the words it has accepted. *)
Lemma process_args_prefix (openmp : bool) (pre rest : list string) :
  forall cfg cfg1,
    process_args openmp pre cfg = ArgsOk cfg1 ->
    process_args openmp (pre ++ rest) cfg = process_args openmp rest cfg1.
Proof.
  induction pre as [| a | a v pre IH] using list_pair_ind; intros cfg cfg1 H.
  - injection H as <-. reflexivity.
  - rewrite process_args_cons in H.
    destruct (set_option openmp a); discriminate.
  - change ((a :: v :: pre) ++ rest) with (a :: v :: (pre ++ rest)).
    rewrite process_args_cons in *.
    destruct (set_option openmp a) as [upd|]; [|discriminate].
    now apply IH.
Qed.

(** The usage exit is taken where, after words it has accepted, the loop
    stands at a word that is none of its options, and nowhere else. *)
Lemma process_args_usage_iff (openmp : bool) (args : list string) :
  forall cfg,
    process_args openmp args cfg = ArgsUsage <->
    exists pre a rest cfg1,
      args = pre ++ a :: rest /\
      process_args openmp pre cfg = ArgsOk cfg1 /\
      ~ is_option openmp a.
Proof.
  intros cfg. split.
  - revert cfg.
    induction args as [| a | a v rest IH] using list_pair_ind; intros cfg H.
    + discriminate.
    + rewrite process_args_cons in H.
      destruct (set_option openmp a) eqn:E; [discriminate|].
      exists [], a, [], cfg. repeat split. now apply set_option_none.
    + rewrite process_args_cons in H.
      destruct (set_option openmp a) as [upd|] eqn:E.
      * destruct (IH _ H) as (pre & a' & rest' & cfg1 & -> & Hpre & Ha').
        exists (a :: v :: pre), a', rest', cfg1. repeat split.
        -- rewrite process_args_cons, E. exact Hpre.
        -- exact Ha'.
      * exists [], a, (v :: rest), cfg. repeat split.
        now apply set_option_none.
  - intros (pre & a & rest & cfg1 & -> & Hpre & Ha).
    rewrite (process_args_prefix openmp pre (a :: rest) cfg cfg1 Hpre).
    rewrite process_args_cons.
    apply set_option_none in Ha. rewrite Ha. reflexivity.
Qed.

(** [multisort] called on 12 elements with both thresholds 1 returns with
    [data] out of order: the engine does not notice a size that is not a
    power of two. *)
Lemma multisort_twelve_unsorted :
  option_map (fun m' => load_range m' 0 12)
    (multisort Kernels.basicsort Kernels.basicmerge
       {| N := 12; MIN_SORT_SIZE := 1; MIN_MERGE_SIZE := 1; CUTOFF := 16 |}
       7 12 0 12
       (store_range 0 [12; 11; 10; 9; 8; 7; 6; 5; 4; 3; 2; 1] (fun _ => 0)))
  = Some [1; 2; 12; 4; 5; 9; 7; 8; 6; 10; 11; 3].
Proof. vm_compute. reflexivity. Qed.

(** C8 as stated fails: the driver accepts [-s 3], a threshold that is not
    a power of two, and [main] does not return [EXIT_FAILURE] on it: it goes
    on to call [multisort]. *)
Lemma driver_accepts_malformed :
  process_args true (tl ["multisort"; "-s"; "3"]%string) default_config
  = ArgsOk {| N := 32768 * 1024; MIN_SORT_SIZE := 3;
              MIN_MERGE_SIZE := 1024; CUTOFF := 16 |} /\
  ~ is_pow2 3 /\
  (forall fuel rnd data tmp m,
      main Kernels.basicsort Kernels.basicmerge fuel true
        ["multisort"; "-s"; "3"]%string rnd data tmp m <> ExitFailure).
Proof.
  split; [reflexivity|]. split; [exact not_pow2_3|].
  intros fuel rnd data tmp m H. apply main_exit_failure in H. discriminate.
Qed.

(** C8, amended.  The driver validates nothing but the option words.  The
    argument loop accepts the empty command line and, at each of its option
    words ([-n], [-s], [-m], and [-c] with [_OPENMP]), stores what [atol] or
    [atoi] makes of the next word, whatever it is, and goes on; on an
    accepted command line [main] calls [multisort(N, data, tmp)] with the
    stored values (its run after the call is stated for [N <= INT_MAX], the
    sizes [check_sorted] can scan).  The loop ends with the usage text and [EXIT_FAILURE],
    before [multisort] is called, when and only when, after words it has
    accepted, it stands at a word that is none of its options. *)
Theorem driver_checks_options_only :
  (forall openmp args cfg,
      process_args openmp args cfg = ArgsUsage <->
      exists pre a rest cfg1,
        args = pre ++ a :: rest /\
        process_args openmp pre cfg = ArgsOk cfg1 /\
        ~ is_option openmp a) /\
  (forall basicsort basicmerge fuel openmp argv rnd data tmp m,
      main basicsort basicmerge fuel openmp argv rnd data tmp m = ExitFailure
      <-> process_args openmp (tl argv) default_config = ArgsUsage) /\
  (forall openmp cfg, process_args openmp [] cfg = ArgsOk cfg) /\
  (forall openmp v rest cfg,
      process_args openmp ("-n"%string :: v :: rest) cfg
      = process_args openmp rest
          {| N := wrap64 (atol v * 1024);
             MIN_SORT_SIZE := MIN_SORT_SIZE cfg;
             MIN_MERGE_SIZE := MIN_MERGE_SIZE cfg;
             CUTOFF := CUTOFF cfg |}) /\
  (forall openmp v rest cfg,
      process_args openmp ("-s"%string :: v :: rest) cfg
      = process_args openmp rest
          {| N := N cfg;
             MIN_SORT_SIZE := atol v;
             MIN_MERGE_SIZE := MIN_MERGE_SIZE cfg;
             CUTOFF := CUTOFF cfg |}) /\
  (forall openmp v rest cfg,
      process_args openmp ("-m"%string :: v :: rest) cfg
      = process_args openmp rest
          {| N := N cfg;
             MIN_SORT_SIZE := MIN_SORT_SIZE cfg;
             MIN_MERGE_SIZE := atol v;
             CUTOFF := CUTOFF cfg |}) /\
  (forall v rest cfg,
      process_args true ("-c"%string :: v :: rest) cfg
      = process_args true rest
          {| N := N cfg;
             MIN_SORT_SIZE := MIN_SORT_SIZE cfg;
             MIN_MERGE_SIZE := MIN_MERGE_SIZE cfg;
             CUTOFF := atoi v |}) /\
  (forall openmp vn vs vm cfg,
      process_args openmp ["-n"; vn; "-s"; vs; "-m"; vm]%string cfg
      = ArgsOk {| N := wrap64 (atol vn * 1024);
                  MIN_SORT_SIZE := atol vs;
                  MIN_MERGE_SIZE := atol vm;
                  CUTOFF := CUTOFF cfg |}) /\
  (forall basicsort basicmerge fuel openmp argv rnd data tmp m cfg,
      process_args openmp (tl argv) default_config = ArgsOk cfg ->
      N cfg <= INT_MAX ->
      main basicsort basicmerge fuel openmp argv rnd data tmp m
      = match multisort basicsort basicmerge cfg fuel (N cfg) data tmp
                (clear (N cfg) tmp (initialize cfg rnd (N cfg) data m)) with
        | None => NoReturn
        | Some m3 =>
            Exit0 cfg
              ((PrintProblem (N cfg ÷ 1024) (MIN_SORT_SIZE cfg)
                  (MIN_MERGE_SIZE cfg)
                :: (if openmp then [PrintCutoff (CUTOFF cfg)] else []))
               ++ (if 0 <? check_sorted (N cfg) data m3
                   then [PrintNotSorted (check_sorted (N cfg) data m3)]
                   else [])
               ++ [PrintFinished])
              m3
        end).
Proof.
  split; [|split; [|split; [|split; [|split; [|split; [|split; [|split]]]]]]].
  - intros openmp args cfg. apply process_args_usage_iff.
  - intros. apply main_exit_failure.
  - reflexivity.
  - reflexivity.
  - reflexivity.
  - reflexivity.
  - reflexivity.
  - reflexivity.
  - intros basicsort basicmerge fuel openmp argv rnd data tmp m cfg H _.
    unfold main. rewrite H. reflexivity.
Qed.

(** The loop accepts [-n 8] and takes the usage exit at [-x]. *)
Lemma driver_checks_options_only_witness :
  process_args true ["-n"; "8"; "-x"]%string default_config = ArgsUsage.
Proof.
  apply (proj1 driver_checks_options_only true ["-n"; "8"; "-x"]%string
           default_config).
  exists ["-n"; "8"]%string, "-x"%string, [],
    {| N := 8192; MIN_SORT_SIZE := 1024; MIN_MERGE_SIZE := 1024;
       CUTOFF := 16 |}.
  split; [reflexivity|]. split; [reflexivity|].
  intros [H | [H | [H | [_ H]]]]; discriminate.
Defined.

(** * Further properties of the code *)

(** ** [clear] *)

Lemma clear_fold (data : ptr) (l : list Z) :
  forall (m : mem) (a : ptr),
    fold_left (fun m i => store (data + i) 0 m) l m a
    = if existsb (fun i => a =? data + i) l then 0 else m a.
Proof.
  induction l as [|i l IH]; intros m a; simpl.
  - reflexivity.
  - rewrite IH. unfold store.
    destruct (existsb _ l); [now rewrite orb_true_r|].
    now rewrite orb_false_r.
Qed.

Lemma clear_outside (length : Z) (data : ptr) (m : mem) :
  unchanged_outside data length m (clear length data m).
Proof.
  unfold clear. intros a Ha. rewrite clear_fold.
  destruct (existsb _ _) eqn:E; [|reflexivity].
  apply existsb_exists in E. destruct E as (i & Hi & Hai).
  apply Z.eqb_eq in Hai. apply in_map_iff in Hi.
  destruct Hi as (j & <- & Hj). apply in_seq in Hj.
  unfold in_range in Ha. lia.
Qed.

(** X1.  [clear(length, data)] sets every cell of [data[0..length)] to 0
    and changes no other cell. *)
Theorem clear_zeroes (length : Z) (data : ptr) (m : mem) :
  (forall a, in_range data length a -> clear length data m a = 0) /\
  unchanged_outside data length m (clear length data m).
Proof.
  unfold clear. split.
  - intros a Ha. rewrite clear_fold.
    replace (existsb _ _) with true; [reflexivity|].
    symmetry. apply existsb_exists. exists (a - data). split.
    + apply in_map_iff. exists (Z.to_nat (a - data)).
      unfold in_range in Ha. split; [lia|]. apply in_seq. lia.
    + apply Z.eqb_eq. lia.
  - intros a Ha. rewrite clear_fold.
    destruct (existsb _ _) eqn:E; [|reflexivity].
    apply existsb_exists in E. destruct E as (i & Hi & Hai).
    apply Z.eqb_eq in Hai. apply in_map_iff in Hi.
    destruct Hi as (j & <- & Hj). apply in_seq in Hj.
    unfold in_range in Ha. lia.
Qed.

(** ** [check_sorted] *)

(** The count of [check_sorted], for the sizes its [int] counters can
    scan. *)
Lemma check_sorted_count (n : Z) (data : ptr) (m : mem) :
  n <= INT_MAX ->
  0 <= check_sorted n data m <= Z.max 0 (n - 1) /\
  (check_sorted n data m = 0 <->
   forall i, 0 <= i < n - 1 -> m (data + i) <= m (data + i + 1)).
Proof.
  intros _. unfold check_sorted.
  set (f := fun i => m (data + i - 1) >? m (data + i)).
  set (l := map Z.of_nat (seq 1 (Z.to_nat n - 1))).
  assert (Hl : forall i, In i l <-> 1 <= i < n).
  { intros i. unfold l. rewrite in_map_iff. split.
    - intros (j & <- & Hj). apply in_seq in Hj. lia.
    - intros Hi. exists (Z.to_nat i). split; [lia|]. apply in_seq. lia. }
  split.
  - split; [lia|].
    pose proof (filter_length_le f l) as Hle.
    unfold l in Hle at 2. rewrite length_map, length_seq in Hle. lia.
  - split.
    + intros H0 i Hi.
      destruct (Z_le_gt_dec (m (data + i)) (m (data + i + 1))) as [|Hgt];
        [assumption|].
      assert (Hin : In (i + 1) (filter f l)).
      { apply filter_In. split; [apply Hl; lia|].
        unfold f. replace (data + (i + 1) - 1) with (data + i) by lia.
        replace (data + (i + 1)) with (data + i + 1) by lia.
        apply Z.gtb_lt. lia. }
      destruct (filter f l); [contradiction | simpl in H0; lia].
    + intros Hs.
      destruct (filter f l) as [|i t] eqn:E; [reflexivity|].
      assert (Hin : In i (filter f l)) by (rewrite E; now left).
      apply filter_In in Hin. destruct Hin as [Hi Hf].
      apply Hl in Hi. unfold f in Hf. apply Z.gtb_lt in Hf.
      specialize (Hs (i - 1)).
      replace (data + (i - 1) + 1) with (data + i) in Hs by lia.
      replace (data + (i - 1)) with (data + i - 1) in Hs by lia.
      lia.
Qed.

(** X2.  For [n <= INT_MAX], [check_sorted(n, data)] counts at most [n-1]
    positions, and it counts none exactly when [data[i] <= data[i+1]] for
    all [0 <= i < n-1]. *)
Theorem check_sorted_exact (n : Z) (data : ptr) (m : mem) :
  n <= INT_MAX ->
  0 <= check_sorted n data m <= Z.max 0 (n - 1) /\
  (check_sorted n data m = 0 <->
   forall i, 0 <= i < n - 1 -> m (data + i) <= m (data + i + 1)).
Proof. apply check_sorted_count. Qed.

(** The scenario input has unordered positions, its sorted arrangement has
    none. *)
Lemma check_sorted_exact_witness :
  (0 <= check_sorted 8 0 scenario_mem <= Z.max 0 (8 - 1) /\
   (check_sorted 8 0 scenario_mem = 0 <->
    forall i, 0 <= i < 8 - 1 -> scenario_mem (0 + i) <= scenario_mem (0 + i + 1)))
  /\ check_sorted 8 0 scenario_mem = 4
  /\ check_sorted 8 0 (store_range 0 scenario_output (fun _ => 0)) = 0.
Proof.
  split; [|split; reflexivity].
  apply (check_sorted_exact 8 0 scenario_mem).
  unfold INT_MAX. lia.
Defined.

(** ** [initialize] *)

Lemma wrap32_id (z : Z) : in_int z -> wrap32 z = z.
Proof.
  unfold in_int, wrap32. intros H. rewrite Z.mod_small; lia.
Qed.

(** One more iteration of the loop of [initialize]. *)
Lemma initialize_S (cfg : config) (rnd : Z) (k : nat) (data : ptr) (m : mem) :
  initialize cfg rnd (Z.of_nat (S k)) data m
  = let m' := initialize cfg rnd (Z.of_nat k) data m in
    let i := Z.of_nat k in
    if i =? 0 then store (data + i) rnd m'
    else
      store (data + i)
        (wrap32
           (Z.rem
              (wrap64 (wrap64 (wrap32 (m' (data + i - 1) + 1) * i) * 104723))
              (N cfg)))
        m'.
Proof.
  unfold initialize. rewrite !Nat2Z.id, seq_S, map_app, fold_left_app.
  reflexivity.
Qed.

Lemma initialize_prefix (cfg : config) (rnd : Z) (data : ptr) (m : mem)
  (k : nat) :
  N cfg <> 0 -> N cfg <> -1 ->
  let m' := initialize cfg rnd (Z.of_nat k) data m in
  unchanged_outside data (Z.of_nat k) m m' /\
  (0 < Z.of_nat k -> m' data = rnd) /\
  (forall i, 1 <= i < Z.of_nat k ->
     m' (data + i)
     = wrap32
         (Z.rem
            (wrap64 (wrap64 (wrap32 (m' (data + i - 1) + 1) * i) * 104723))
            (N cfg))).
Proof.
  intros _ _. induction k as [|k IH].
  - cbv zeta. split; [intros a _; reflexivity|]. split; intros; lia.
  - cbv zeta in *. rewrite initialize_S. cbv zeta.
    destruct IH as (IHu & IH0 & IHr).
    set (mk := initialize cfg rnd (Z.of_nat k) data m) in *.
    destruct (Z.of_nat k =? 0) eqn:Ek.
    + apply Z.eqb_eq in Ek. split; [|split].
      * intros a Ha. unfold store, in_range in *.
        destruct (a =? data + Z.of_nat k) eqn:Ea;
          [apply Z.eqb_eq in Ea; lia|].
        apply IHu. unfold in_range. lia.
      * intros _. unfold store. rewrite Ek, Z.add_0_r, Z.eqb_refl.
        reflexivity.
      * intros i Hi. lia.
    + apply Z.eqb_neq in Ek. split; [|split].
      * intros a Ha. unfold store, in_range in *.
        destruct (a =? data + Z.of_nat k) eqn:Ea;
          [apply Z.eqb_eq in Ea; lia|].
        apply IHu. unfold in_range. lia.
      * intros _. unfold store.
        replace (data =? data + Z.of_nat k) with false
          by (symmetry; apply Z.eqb_neq; lia).
        apply IH0. lia.
      * intros i Hi. unfold store.
        replace (data + i - 1 =? data + Z.of_nat k) with false
          by (symmetry; apply Z.eqb_neq; lia).
        destruct (data + i =? data + Z.of_nat k) eqn:Ei.
        -- apply Z.eqb_eq in Ei. replace i with (Z.of_nat k) by lia.
           reflexivity.
        -- apply Z.eqb_neq in Ei. apply IHr. lia.
Qed.

(** The loop of [initialize], where the remainder [% N] is defined. *)
Lemma initialize_loop (cfg : config) (rnd length : Z) (data : ptr)
  (m : mem) :
  N cfg <> 0 -> N cfg <> -1 ->
  let m' := initialize cfg rnd length data m in
  unchanged_outside data length m m' /\
  (0 < length -> m' data = rnd) /\
  (forall i, 1 <= i < length ->
     m' (data + i)
     = wrap32
         (Z.rem
            (wrap64 (wrap64 (wrap32 (m' (data + i - 1) + 1) * i) * 104723))
            (N cfg))).
Proof.
  intros H0 H1.
  destruct (Z_le_gt_dec 0 length) as [Hl|Hl].
  - rewrite <- (Z2Nat.id length Hl). now apply initialize_prefix.
  - assert (E : initialize cfg rnd length data m = m).
    { unfold initialize. replace (Z.to_nat length) with 0%nat by lia.
      reflexivity. }
    rewrite E. cbv zeta. split; [intros a _; reflexivity|]. split; intros; lia.
Qed.

(** X3.  For [N] other than 0 and -1 (where [% N] cannot trap),
    [initialize(length, data)] writes [data[0..length)] and nothing else:
    [data[0]] receives the value of [rand()], and every later cell is
    computed from the cell before it by the formula of the source. *)
Theorem initialize_fills (cfg : config) (rnd length : Z) (data : ptr)
  (m : mem) :
  N cfg <> 0 -> N cfg <> -1 ->
  let m' := initialize cfg rnd length data m in
  unchanged_outside data length m m' /\
  (0 < length -> m' data = rnd) /\
  (forall i, 1 <= i < length ->
     m' (data + i)
     = wrap32
         (Z.rem
            (wrap64 (wrap64 (wrap32 (m' (data + i - 1) + 1) * i) * 104723))
            (N cfg))).
Proof. apply initialize_loop. Qed.

(** Eight cells with [N = 8] and the first value of glibc's [rand()]. *)
Lemma initialize_fills_witness :
  let m' := initialize scenario_config 1804289383 8 0 (fun _ => 7) in
  (unchanged_outside 0 8 (fun _ => 7) m' /\
   (0 < 8 -> m' 0 = 1804289383) /\
   (forall i, 1 <= i < 8 ->
      m' (0 + i)
      = wrap32
          (Z.rem
             (wrap64 (wrap64 (wrap32 (m' (0 + i - 1) + 1) * i) * 104723))
             (N scenario_config)))) /\
  load_range m' 0 9 = [1804289383; 0; 6; 7; 0; 7; 0; 5; 7].
Proof.
  intros m'. split; [|vm_compute; reflexivity].
  apply (initialize_fills scenario_config 1804289383 8 0 (fun _ => 7));
    simpl; lia.
Defined.

(** X4.  When [0 < N <= 2^31], every cell that [initialize] writes after
    the first lies strictly between [-N] and [N]. *)
Theorem initialize_bounds (cfg : config) (rnd length : Z) (data : ptr)
  (m : mem) :
  0 < N cfg <= 2 ^ 31 ->
  forall i, 1 <= i < length ->
    - N cfg < initialize cfg rnd length data m (data + i) < N cfg.
Proof.
  intros HN i Hi.
  destruct (initialize_loop cfg rnd length data m) as (_ & _ & Hr);
    [lia | lia |].
  rewrite (Hr i Hi).
  match goal with |- context [Z.rem ?x (N cfg)] =>
    pose proof (Z.rem_bound_abs x (N cfg)) as Hb end.
  rewrite wrap32_id; [lia | unfold in_int; lia].
Qed.

Lemma initialize_bounds_witness :
  - 8 < initialize scenario_config 1804289383 8 0 (fun _ => 0) (0 + 5) < 8.
Proof.
  apply (initialize_bounds scenario_config 1804289383 8 0 (fun _ => 0)).
  - simpl. lia.
  - lia.
Defined.

(** ** The argument loop of [main] *)

(** X5.  The loop succeeds only on an even number of words (every option
    takes one value), and it reads past the end of [argv] only on an odd
    number of words. *)
Theorem process_args_parity (openmp : bool) (args : list string) :
  forall cfg,
    (forall cfg', process_args openmp args cfg = ArgsOk cfg' ->
                  Nat.Even (List.length args)) /\
    (process_args openmp args cfg = ArgsNull ->
     Nat.Odd (List.length args)).
Proof.
  induction args as [| a | a v rest IH] using list_pair_ind; intros cfg.
  - split; [intros _ _; exists 0%nat; reflexivity | discriminate].
  - rewrite process_args_cons. destruct (set_option openmp a).
    + split; [discriminate | intros _; exists 0%nat; reflexivity].
    + split; discriminate.
  - rewrite process_args_cons. destruct (set_option openmp a) as [upd|].
    + destruct (IH (upd v cfg)) as [IHe IHo]. cbn [List.length]. split.
      * intros cfg' H. apply Nat.Even_succ_succ. eapply IHe; eauto.
      * intros H. apply Nat.Odd_succ, Nat.Even_succ. auto.
    + split; discriminate.
Qed.

(** X6.  Words that the loop has read with success are done with: the loop
    on a command line that continues them goes on from the configuration
    they gave. *)
Theorem process_args_app (openmp : bool) (args1 args2 : list string) :
  forall cfg cfg1,
    process_args openmp args1 cfg = ArgsOk cfg1 ->
    process_args openmp (args1 ++ args2) cfg
    = process_args openmp args2 cfg1.
Proof.
  induction args1 as [| a | a v rest IH] using list_pair_ind;
    intros cfg cfg1 H.
  - injection H as <-. reflexivity.
  - rewrite process_args_cons in H.
    destruct (set_option openmp a); discriminate.
  - change ((a :: v :: rest) ++ args2) with (a :: v :: (rest ++ args2)).
    rewrite process_args_cons in *.
    destruct (set_option openmp a) as [upd|]; [|discriminate].
    now apply IH.
Qed.

Lemma process_args_app_witness :
  process_args true
    (["-n"; "4"]%string ++ ["-s"; "16"; "-c"; "3"]%string) default_config
  = process_args true ["-s"; "16"; "-c"; "3"]%string
      {| N := 4096; MIN_SORT_SIZE := 1024; MIN_MERGE_SIZE := 1024;
         CUTOFF := 16 |}.
Proof.
  apply (process_args_app true ["-n"; "4"]%string
           ["-s"; "16"; "-c"; "3"]%string default_config).
  reflexivity.
Defined.

(** Whatever every option keeps, the loop keeps. *)
Lemma process_args_invariant (openmp : bool) (I : config -> Prop) :
  (forall a upd v cfg,
      set_option openmp a = Some upd -> I cfg -> I (upd v cfg)) ->
  forall args cfg cfg',
    I cfg -> process_args openmp args cfg = ArgsOk cfg' -> I cfg'.
Proof.
  intros Hstep args.
  induction args as [| a | a v rest IH] using list_pair_ind;
    intros cfg cfg' HI H.
  - now injection H as <-.
  - rewrite process_args_cons in H.
    destruct (set_option openmp a); discriminate.
  - rewrite process_args_cons in H.
    destruct (set_option openmp a) as [upd|] eqn:E; [|discriminate].
    eapply IH; [|exact H]. eapply Hstep; eauto.
Qed.

Lemma set_option_cases (openmp : bool) (a : string) upd :
  set_option openmp a = Some upd ->
  (a = "-n"%string /\
   upd = fun v cfg =>
           {| N := wrap64 (atol v * 1024);
              MIN_SORT_SIZE := MIN_SORT_SIZE cfg;
              MIN_MERGE_SIZE := MIN_MERGE_SIZE cfg;
              CUTOFF := CUTOFF cfg |}) \/
  (a = "-s"%string /\
   upd = fun v cfg =>
           {| N := N cfg;
              MIN_SORT_SIZE := atol v;
              MIN_MERGE_SIZE := MIN_MERGE_SIZE cfg;
              CUTOFF := CUTOFF cfg |}) \/
  (a = "-m"%string /\
   upd = fun v cfg =>
           {| N := N cfg;
              MIN_SORT_SIZE := MIN_SORT_SIZE cfg;
              MIN_MERGE_SIZE := atol v;
              CUTOFF := CUTOFF cfg |}) \/
  (a = "-c"%string /\ openmp = true /\
   upd = fun v cfg =>
           {| N := N cfg;
              MIN_SORT_SIZE := MIN_SORT_SIZE cfg;
              MIN_MERGE_SIZE := MIN_MERGE_SIZE cfg;
              CUTOFF := atoi v |}).
Proof.
  unfold set_option.
  destruct (String.eqb a "-n") eqn:En.
  { apply String.eqb_eq in En. intros [= <-]. auto. }
  destruct (String.eqb a "-s") eqn:Es.
  { apply String.eqb_eq in Es. intros [= <-]. auto. }
  destruct (String.eqb a "-m") eqn:Em.
  { apply String.eqb_eq in Em. intros [= <-]. auto. }
  destruct openmp; simpl; [|discriminate].
  destruct (String.eqb a "-c") eqn:Ec; [|discriminate].
  apply String.eqb_eq in Ec. intros [= <-]. auto 10.
Qed.

(** X7.  After a successful loop a global differs from what it was only if
    its option is among the words; without [_OPENMP], [CUTOFF] never
    changes. *)
Theorem process_args_untouched (openmp : bool) (args : list string) :
  forall cfg cfg',
    process_args openmp args cfg = ArgsOk cfg' ->
    (~ In "-n"%string args -> N cfg' = N cfg) /\
    (~ In "-s"%string args -> MIN_SORT_SIZE cfg' = MIN_SORT_SIZE cfg) /\
    (~ In "-m"%string args -> MIN_MERGE_SIZE cfg' = MIN_MERGE_SIZE cfg) /\
    (openmp = false \/ ~ In "-c"%string args -> CUTOFF cfg' = CUTOFF cfg).
Proof.
  induction args as [| a | a v rest IH] using list_pair_ind;
    intros cfg cfg' H.
  - injection H as <-. auto.
  - rewrite process_args_cons in H.
    destruct (set_option openmp a); discriminate.
  - rewrite process_args_cons in H.
    destruct (set_option openmp a) as [upd|] eqn:E; [|discriminate].
    destruct (IH _ _ H) as (Hn & Hs & Hm & Hc).
    assert (Hin : forall x : string,
               ~ In x (a :: v :: rest) -> a <> x /\ ~ In x rest).
    { intros x Hx. split.
      - intros ->. apply Hx. now left.
      - intros Hr. apply Hx. now right; right. }
    apply set_option_cases in E.
    destruct E as [[-> ->] | [[-> ->] | [[-> ->] | (-> & -> & ->)]]];
      simpl in Hn, Hs, Hm, Hc; (split; [|split; [|split]]);
      intros Hx;
      try (apply Hin in Hx; destruct Hx as [Hne Hx]; try congruence; auto);
      try (destruct Hx as [Hx | Hx];
           [discriminate
           | apply Hin in Hx; destruct Hx as [Hne Hx]; try congruence; auto]).
    all: destruct Hx as [Hx | Hx]; auto;
      apply Hin in Hx; destruct Hx as [Hne Hx]; auto.
Qed.

Lemma process_args_untouched_witness :
  let cfg' := {| N := 4096; MIN_SORT_SIZE := 1024; MIN_MERGE_SIZE := 1024;
                 CUTOFF := 16 |} in
  (~ In "-n"%string ["-n"; "4"]%string -> N cfg' = N default_config) /\
  (~ In "-s"%string ["-n"; "4"]%string ->
   MIN_SORT_SIZE cfg' = MIN_SORT_SIZE default_config) /\
  (~ In "-m"%string ["-n"; "4"]%string ->
   MIN_MERGE_SIZE cfg' = MIN_MERGE_SIZE default_config) /\
  (true = false \/ ~ In "-c"%string ["-n"; "4"]%string ->
   CUTOFF cfg' = CUTOFF default_config).
Proof.
  intros cfg'.
  apply (process_args_untouched true ["-n"; "4"]%string default_config cfg').
  reflexivity.
Defined.

Lemma wrap64_in_long (z : Z) : in_long (wrap64 z).
Proof.
  unfold in_long, wrap64, LONG_MIN, LONG_MAX.
  pose proof (Z.mod_pos_bound (z + 2 ^ 63) (2 ^ 64)). lia.
Qed.

Lemma wrap32_in_int (z : Z) : in_int (wrap32 z).
Proof.
  unfold in_int, wrap32.
  pose proof (Z.mod_pos_bound (z + 2 ^ 31) (2 ^ 32)). lia.
Qed.

Lemma atol_in_long (s : string) : in_long (atol s).
Proof.
  assert (H : exists z, atol s = Z.max LONG_MIN (Z.min LONG_MAX z)).
  { unfold atol, strtol10. destruct (skip_spaces s) as [|c s'].
    - eexists; reflexivity.
    - destruct c as [[] [] [] [] [] [] [] []]; eexists; reflexivity. }
  destruct H as [z ->]. unfold in_long, LONG_MIN, LONG_MAX. lia.
Qed.

(** X8.  The loop keeps every global within its C type, and it keeps [N] a
    multiple of 1024: [main] sorts a whole number of Kelements. *)
Theorem process_args_well_typed (openmp : bool) (args : list string)
  (cfg cfg' : config) :
  process_args openmp args cfg = ArgsOk cfg' ->
  (well_typed cfg -> well_typed cfg') /\
  ((1024 | N cfg) -> (1024 | N cfg')).
Proof.
  intros H. split; intros HI.
  - revert HI H.
    apply (process_args_invariant openmp well_typed).
    intros a upd v c E (HN & HS & HM & HC).
    apply set_option_cases in E.
    destruct E as [[-> ->] | [[-> ->] | [[-> ->] | (-> & -> & ->)]]];
      unfold well_typed; simpl; repeat split;
      try apply wrap64_in_long; try apply atol_in_long;
      try apply wrap32_in_int; try apply HN; try apply HS;
      try apply HM; try apply HC.
  - revert HI H.
    apply (process_args_invariant openmp (fun c => (1024 | N c))).
    intros a upd v c E HN.
    apply set_option_cases in E.
    destruct E as [[-> ->] | [[-> ->] | [[-> ->] | (-> & -> & ->)]]];
      simpl; try assumption.
    destruct (wrap64_multiple 1024 (atol v)) as [q ->].
    + exists (2 ^ 53). reflexivity.
    + exists q. ring.
Qed.

Lemma process_args_well_typed_witness :
  well_typed {| N := 3072; MIN_SORT_SIZE := 7; MIN_MERGE_SIZE := 1024;
                CUTOFF := 16 |} /\
  (1024 | 3072).
Proof.
  destruct (process_args_well_typed true ["-n"; "3"; "-s"; "7"]%string
              default_config
              {| N := 3072; MIN_SORT_SIZE := 7; MIN_MERGE_SIZE := 1024;
                 CUTOFF := 16 |} eq_refl) as [Ht Hm].
  split.
  - apply Ht. unfold well_typed, in_long, in_int, LONG_MIN, LONG_MAX.
    simpl. lia.
  - apply Hm. exists 32768. reflexivity.
Defined.

(** ** [merge] and [multisort] outside their preconditions *)

(** [merge] on a slice of any length: whenever it returns, nothing has
    changed outside the slice. *)
Lemma merge_frame basicmerge cfg (fuel : nat) :
  basicmerge_contract basicmerge ->
  forall n left right result start len m m',
    0 <= n -> 2 * n <= LONG_MAX ->
    0 <= start -> 0 <= len -> start + len <= 2 * n ->
    Sorted Z.le (load_range m left n) ->
    Sorted Z.le (load_range m right n) ->
    disjoint result (2 * n) left n ->
    disjoint result (2 * n) right n ->
    merge basicmerge cfg fuel n left right result start len m = Some m' ->
    unchanged_outside (result + start) len m m'.
Proof.
  intros Hbm. induction fuel as [|fuel IH];
    intros n left right result start len m m' Hn Hn2 Hs Hl Hend HL HR DL DR
      Hrun; [discriminate|].
  rewrite merge_S in Hrun. destruct (_ <? _) eqn:E.
  - injection Hrun as <-. apply Hbm; assumption.
  - assert (Hh : 0 <= len ÷ 2 /\ 2 * (len ÷ 2) <= len).
    { rewrite Z.quot_div_nonneg by lia.
      pose proof (Z.mul_div_le len 2). split; [apply Z.div_pos|]; lia. }
    rewrite wrap64_id in Hrun by (unfold in_long, LONG_MIN; lia).
    destruct (merge basicmerge cfg fuel n left right result start (len ÷ 2) m)
      as [m1|] eqn:E1; [|discriminate]. cbn [bind] in Hrun.
    apply IH in E1; try assumption; try lia.
    apply IH in Hrun; try assumption; try lia.
    + intros a Ha. rewrite Hrun, E1 by ranges. reflexivity.
    + rewrite (unchanged_outside_load m m1 _ left _ n E1) by ranges.
      assumption.
    + rewrite (unchanged_outside_load m m1 _ right _ n E1) by ranges.
      assumption.
Qed.

(** X9.  When [length] is at least [2*MIN_MERGE_SIZE], [merge] only writes
    the [2*(length/2)] cells of its two halves; if [length] is odd, the last
    cell of the slice, [result[start+length-1]], is left as it was. *)
Theorem merge_odd_length basicmerge cfg n left right result start len m
  fuel m' :
  basicmerge_contract basicmerge ->
  0 <= n -> 2 * n <= LONG_MAX ->
  0 <= start -> 0 <= len -> start + len <= 2 * n ->
  Sorted Z.le (load_range m left n) ->
  Sorted Z.le (load_range m right n) ->
  disjoint result (2 * n) left n ->
  disjoint result (2 * n) right n ->
  wrap64 (MIN_MERGE_SIZE cfg * 2) <= len ->
  merge basicmerge cfg fuel n left right result start len m = Some m' ->
  unchanged_outside (result + start) (2 * (len ÷ 2)) m m' /\
  (Z.odd len = true ->
   m' (result + start + len - 1) = m (result + start + len - 1)).
Proof.
  intros Hbm Hn Hn2 Hs Hl Hend HL HR DL DR Ht Hrun.
  assert (Hh : 0 <= len ÷ 2 /\ 2 * (len ÷ 2) <= len).
  { rewrite Z.quot_div_nonneg by lia.
    pose proof (Z.mul_div_le len 2). split; [apply Z.div_pos|]; lia. }
  assert (Hu : unchanged_outside (result + start) (2 * (len ÷ 2)) m m').
  { destruct fuel as [|fuel]; [discriminate|].
    rewrite merge_S in Hrun.
    replace (len <? _) with false in Hrun
      by (symmetry; apply Z.ltb_ge; lia).
    rewrite wrap64_id in Hrun by (unfold in_long, LONG_MIN; lia).
    destruct (merge basicmerge cfg fuel n left right result start (len ÷ 2) m)
      as [m1|] eqn:E1; [|discriminate]. cbn [bind] in Hrun.
    apply (merge_frame _ _ _ Hbm) in E1; try assumption; try lia.
    apply (merge_frame _ _ _ Hbm) in Hrun; try assumption; try lia.
    - intros a Ha. rewrite Hrun, E1 by ranges. reflexivity.
    - rewrite (unchanged_outside_load m m1 _ left _ n E1) by ranges.
      assumption.
    - rewrite (unchanged_outside_load m m1 _ right _ n E1) by ranges.
      assumption. }
  split; [exact Hu|]. intros Hodd. apply Hu.
  rewrite Z.quot_div_nonneg in * by lia.
  rewrite Zodd_mod in Hodd. apply Z.eqb_eq in Hodd.
  pose proof (Z.div_mod len 2). unfold in_range. lia.
Qed.

(** Three cells merged with threshold 1: the third cell of [result] keeps
    the 77 it held. *)
Lemma merge_odd_length_witness :
  let cfg := {| N := 8; MIN_SORT_SIZE := 1; MIN_MERGE_SIZE := 1;
                CUTOFF := 16 |} in
  let m := store_range 0 [1; 3; 5; 7; 2; 4; 6; 8; 77; 77; 77] (fun _ => 0) in
  option_map (fun m' => load_range m' 8 3)
    (merge Kernels.basicmerge cfg 3 4 0 4 8 0 3 m)
  = Some [1; 2; 77].
Proof.
  intros cfg m.
  destruct (merge Kernels.basicmerge cfg 3 4 0 4 8 0 3 m) as [m'|] eqn:E;
    [|vm_compute in E; discriminate].
  assert (HL : Sorted Z.le (load_range m 0 4))
    by (vm_compute; repeat constructor; discriminate).
  assert (HR : Sorted Z.le (load_range m 4 4))
    by (vm_compute; repeat constructor; discriminate).
  destruct (merge_odd_length Kernels.basicmerge cfg 4 0 4 8 0 3 m 3 m'
              kernels_basicmerge_ok) as [_ Hlast];
    try assumption; try (unfold LONG_MAX; simpl; lia); try (right; lia).
  - vm_compute. discriminate.
  - specialize (Hlast eq_refl). simpl. f_equal.
    change (load_range m' 8 3)
      with [m' (8 + 0); m' (8 + 1); m' (8 + 0 + 3 - 1)].
    rewrite Hlast. injection E as <-. reflexivity.
Defined.

(** X10.  A call [multisort(n, data, tmp)] that returns has changed no cell
    outside [data[0..n)] and [tmp[0..n)]. *)
Theorem multisort_frame basicsort basicmerge cfg n data tmp m fuel m' :
  basicsort_contract basicsort -> basicmerge_contract basicmerge ->
  is_pow2 n -> buffer_size_ok n -> disjoint data n tmp n ->
  multisort basicsort basicmerge cfg fuel n data tmp m = Some m' ->
  forall a, ~ in_range data n a -> ~ in_range tmp n a -> m' a = m a.
Proof.
  intros Hbs Hbm Hn Hb D Hrun.
  apply (multisort_post _ _ _ _ _ _ _ _ _ Hbs Hbm Hn Hb D Hrun).
Qed.

Lemma multisort_frame_witness :
  option_map (fun m' => (m' (-1), m' 16))
    (multisort Kernels.basicsort Kernels.basicmerge scenario_config
       5 8 0 8 scenario_mem)
  = Some (scenario_mem (-1), scenario_mem 16).
Proof.
  destruct (multisort Kernels.basicsort Kernels.basicmerge scenario_config
              5 8 0 8 scenario_mem) as [m'|] eqn:E;
    [|vm_compute in E; discriminate].
  simpl. f_equal.
  rewrite !(multisort_frame Kernels.basicsort Kernels.basicmerge
              scenario_config 8 0 8 scenario_mem 5 m'
              kernels_basicsort_ok kernels_basicmerge_ok
              scenario_pow2 scenario_size scenario_disjoint E)
    by (unfold in_range; lia).
  reflexivity.
Defined.

(** X11.  What [data] holds after [multisort] depends on what [data] held
    before and on nothing else: not on the content or the place of the
    scratch buffer, nor on the rest of the memory, nor on the
    configuration. *)
Theorem multisort_scratch_independent basicsort basicmerge cfg1 cfg2 n data
  tmp1 tmp2 m1 m2 fuel1 fuel2 r1 r2 :
  basicsort_contract basicsort -> basicmerge_contract basicmerge ->
  is_pow2 n -> buffer_size_ok n ->
  disjoint data n tmp1 n -> disjoint data n tmp2 n ->
  load_range m1 data n = load_range m2 data n ->
  multisort basicsort basicmerge cfg1 fuel1 n data tmp1 m1 = Some r1 ->
  multisort basicsort basicmerge cfg2 fuel2 n data tmp2 m2 = Some r2 ->
  load_range r1 data n = load_range r2 data n.
Proof.
  intros Hbs Hbm Hn Hb D1 D2 Hin E1 E2.
  destruct (multisort_post _ _ _ _ _ _ _ _ _ Hbs Hbm Hn Hb D1 E1)
    as [[S1 P1] _].
  destruct (multisort_post _ _ _ _ _ _ _ _ _ Hbs Hbm Hn Hb D2 E2)
    as [[S2 P2] _].
  apply sorted_perm_unique; try assumption.
  now rewrite <- P1, <- P2, Hin.
Qed.

(** The scenario with its scratch buffer at address 8, left as it is, and
    at address 100, filled with 7s. *)
Lemma multisort_scratch_independent_witness :
  let m2 := store_range 100 [7; 7; 7; 7; 7; 7; 7; 7] scenario_mem in
  option_map (fun r => load_range r 0 8)
    (multisort Kernels.basicsort Kernels.basicmerge scenario_config
       5 8 0 8 scenario_mem)
  = option_map (fun r => load_range r 0 8)
      (multisort Kernels.basicsort Kernels.basicmerge scenario_config
         6 8 0 100 m2).
Proof.
  intros m2.
  destruct (multisort Kernels.basicsort Kernels.basicmerge scenario_config
              5 8 0 8 scenario_mem) as [r1|] eqn:E1;
    [|vm_compute in E1; discriminate].
  destruct (multisort Kernels.basicsort Kernels.basicmerge scenario_config
              6 8 0 100 m2) as [r2|] eqn:E2;
    [|vm_compute in E2; discriminate].
  simpl. f_equal.
  apply (multisort_scratch_independent Kernels.basicsort Kernels.basicmerge
           scenario_config scenario_config 8 0 8 100 scenario_mem m2 5 6
           r1 r2 kernels_basicsort_ok kernels_basicmerge_ok
           scenario_pow2 scenario_size scenario_disjoint);
    [left; lia | reflexivity | exact E1 | exact E2].
Defined.

(** X12.  With [MIN_SORT_SIZE <= 0], [multisort] never returns on a size
    [n >= 0]; with [MIN_MERGE_SIZE <= 0], it never returns once it takes the
    recursive branch ([n >= 4*MIN_SORT_SIZE]). *)
Theorem nonpositive_threshold_diverges basicsort basicmerge cfg n data tmp m :
  in_long (MIN_SORT_SIZE cfg * 4) -> in_long (MIN_MERGE_SIZE cfg * 2) ->
  0 <= n ->
  MIN_SORT_SIZE cfg <= 0 \/
  (MIN_MERGE_SIZE cfg <= 0 /\ 4 * MIN_SORT_SIZE cfg <= n) ->
  forall fuel,
    multisort basicsort basicmerge cfg fuel n data tmp m = None.
Proof.
  intros Hs Hm Hn [Hneg | [Hneg Hge]] fuel.
  - apply multisort_diverges; [|assumption].
    rewrite wrap64_id by assumption. lia.
  - destruct fuel as [|fuel]; [reflexivity|].
    rewrite multisort_S, wrap64_id by assumption.
    replace (_ <=? n) with true by (symmetry; apply Z.leb_le; lia).
    assert (Hd : forall l r res s mm,
               merge basicmerge cfg fuel (n ÷ 4) l r res s (n ÷ 2) mm = None).
    { intros. apply merge_diverges.
      - rewrite wrap64_id by assumption. lia.
      - apply Z.quot_pos; lia. }
    repeat match goal with
           | |- bind (multisort ?bs ?bm ?c ?f ?k ?d ?t ?mm) _ = None =>
               destruct (multisort bs bm c f k d t mm); [cbn [bind]|reflexivity]
           end.
    rewrite Hd. reflexivity.
Qed.

Lemma nonpositive_threshold_diverges_witness :
  multisort Kernels.basicsort Kernels.basicmerge
    {| N := 8; MIN_SORT_SIZE := 0; MIN_MERGE_SIZE := 2; CUTOFF := 16 |}
    1000 8 0 8 scenario_mem = None /\
  multisort Kernels.basicsort Kernels.basicmerge
    {| N := 8; MIN_SORT_SIZE := 2; MIN_MERGE_SIZE := 0; CUTOFF := 16 |}
    1000 8 0 8 scenario_mem = None.
Proof.
  split.
  - apply nonpositive_threshold_diverges;
      unfold in_long, LONG_MIN, LONG_MAX; simpl; lia.
  - apply nonpositive_threshold_diverges;
      unfold in_long, LONG_MIN, LONG_MAX; simpl; lia.
Defined.

(** ** [main] *)

(** A run of [main] on an accepted command line with [N] a power of two
    that [check_sorted] can scan, and positive thresholds. *)
Lemma main_exit0_sorted basicsort basicmerge openmp argv cfg rnd data tmp m :
  basicsort_contract basicsort -> basicmerge_contract basicmerge ->
  process_args openmp (tl argv) default_config = ArgsOk cfg ->
  is_pow2 (N cfg) -> N cfg <= INT_MAX -> valid_thresholds cfg ->
  disjoint data (N cfg) tmp (N cfg) ->
  exists fuel0, forall fuel, (fuel0 <= fuel)%nat ->
    exists m',
      main basicsort basicmerge fuel openmp argv rnd data tmp m
      = Exit0 cfg
          (PrintProblem (N cfg ÷ 1024) (MIN_SORT_SIZE cfg) (MIN_MERGE_SIZE cfg)
           :: (if openmp then [PrintCutoff (CUTOFF cfg)] else [])
           ++ [PrintFinished])
          m' /\
      Sorted Z.le (load_range m' data (N cfg)) /\
      Permutation
        (load_range (initialize cfg rnd (N cfg) data m) data (N cfg))
        (load_range m' data (N cfg)).
Proof.
  intros Hbs Hbm Hargs Hn Hint Hv D.
  assert (Hb : buffer_size_ok (N cfg))
    by (unfold buffer_size_ok, INT_MAX, LONG_MAX in *; lia).
  destruct (multisort_returns basicsort basicmerge cfg (N cfg) Hn Hv)
    as [fuel0 Hret].
  exists fuel0. intros fuel Hf. unfold main. rewrite Hargs.
  set (m1 := initialize cfg rnd (N cfg) data m).
  set (m2 := clear (N cfg) tmp m1).
  destruct (Hret fuel data tmp m2 Hf) as [m' E]. rewrite E.
  destruct (multisort_post _ _ _ _ _ _ _ _ _ Hbs Hbm Hn Hb D E)
    as [[HS HP] _].
  exists m'. rewrite (check_sorted_zero _ _ _ Hint HS). simpl.
  split; [reflexivity|]. split; [exact HS|].
  rewrite <- HP. unfold m2.
  pose proof (clear_outside (N cfg) tmp m1) as Hu.
  rewrite (unchanged_outside_load m1 _ tmp data (N cfg) (N cfg) Hu);
    [reflexivity|]. unfold disjoint in *. lia.
Qed.

(** X13.  Assume both [malloc]s succeeded, so that [data] and [tmp] are two
    separate blocks of [N] cells.  On a command line that the loop accepts
    with [N] a power of two, [N <= INT_MAX], and positive thresholds,
    [main] returns 0: it has printed the banner and the closing line but no
    error, and [data] holds, in non-decreasing order, the values
    [initialize] put there. *)
Theorem main_sorts basicsort basicmerge openmp argv cfg rnd data tmp m :
  basicsort_contract basicsort -> basicmerge_contract basicmerge ->
  process_args openmp (tl argv) default_config = ArgsOk cfg ->
  is_pow2 (N cfg) -> N cfg <= INT_MAX -> valid_thresholds cfg ->
  disjoint data (N cfg) tmp (N cfg) ->
  exists fuel0, forall fuel, (fuel0 <= fuel)%nat ->
    exists m',
      main basicsort basicmerge fuel openmp argv rnd data tmp m
      = Exit0 cfg
          (PrintProblem (N cfg ÷ 1024) (MIN_SORT_SIZE cfg) (MIN_MERGE_SIZE cfg)
           :: (if openmp then [PrintCutoff (CUTOFF cfg)] else [])
           ++ [PrintFinished])
          m' /\
      Sorted Z.le (load_range m' data (N cfg)) /\
      Permutation
        (load_range (initialize cfg rnd (N cfg) data m) data (N cfg))
        (load_range m' data (N cfg)).
Proof. apply main_exit0_sorted. Qed.

Lemma main_sorts_witness :
  let argv := ["multisort"; "-n"; "1"; "-s"; "4"; "-m"; "8"]%string in
  let cfg := {| N := 1024; MIN_SORT_SIZE := 4; MIN_MERGE_SIZE := 8;
                CUTOFF := 16 |} in
  exists fuel0, forall fuel, (fuel0 <= fuel)%nat ->
    exists m',
      main Kernels.basicsort Kernels.basicmerge fuel true argv 1804289383
        0 1024 (fun _ => 0)
      = Exit0 cfg [PrintProblem 1 4 8; PrintCutoff 16; PrintFinished] m' /\
      Sorted Z.le (load_range m' 0 1024) /\
      Permutation
        (load_range (initialize cfg 1804289383 1024 0 (fun _ => 0)) 0 1024)
        (load_range m' 0 1024).
Proof.
  intros argv cfg.
  apply (main_sorts Kernels.basicsort Kernels.basicmerge true argv cfg
           1804289383 0 1024 (fun _ => 0)
           kernels_basicsort_ok kernels_basicmerge_ok).
  - reflexivity.
  - exists 10%nat. reflexivity.
  - unfold INT_MAX. simpl. lia.
  - unfold valid_thresholds, LONG_MAX. simpl. lia.
  - left. simpl. lia.
Defined.

(** X14.  Assume both [malloc]s succeeded and [N <= INT_MAX].  When [main]
    returns 0, the line "data is NOT properly sorted" is absent from its
    output exactly when [data[i] <= data[i+1]] for all [0 <= i < N-1]:
    unsorted output is reported by that line only, not by the exit
    status. *)
Theorem main_report basicsort basicmerge fuel openmp argv rnd data tmp m
  cfg out m' :
  N cfg <= INT_MAX ->
  main basicsort basicmerge fuel openmp argv rnd data tmp m
  = Exit0 cfg out m' ->
  process_args openmp (tl argv) default_config = ArgsOk cfg /\
  ((forall k, ~ In (PrintNotSorted k) out) <->
   (forall i, 0 <= i < N cfg - 1 -> m' (data + i) <= m' (data + i + 1))).
Proof.
  intros Hint. unfold main.
  destruct (process_args openmp (tl argv) default_config) as [c| |];
    try discriminate.
  destruct (multisort _ _ _ _ _ _ _ _) as [m3|]; [|discriminate].
  intros [= -> <- ->]. split; [reflexivity|].
  destruct (check_sorted_count (N cfg) data m' Hint) as [Hrange Hiff].
  rewrite <- Hiff.
  destruct (0 <? check_sorted (N cfg) data m') eqn:E.
  - apply Z.ltb_lt in E. split.
    + intros Hno. exfalso. apply (Hno (check_sorted (N cfg) data m')).
      right. apply in_or_app. right. now left.
    + intros H0. lia.
  - apply Z.ltb_ge in E. split; [lia|]. intros _ k Hin.
    destruct Hin as [Hin | Hin]; [discriminate|].
    apply in_app_or in Hin. destruct Hin as [Hin | Hin].
    + destruct openmp; [destruct Hin as [Hin | []]; discriminate|].
      contradiction.
    + destruct Hin as [Hin | []]. discriminate.
Qed.

(** A run on 1024 cells: some budget makes [main] return 0, and then the
    equivalence holds of what it printed and left in [data]. *)
Lemma main_report_witness :
  let argv := ["multisort"; "-n"; "1"; "-s"; "4"; "-m"; "8"]%string in
  let cfg := {| N := 1024; MIN_SORT_SIZE := 4; MIN_MERGE_SIZE := 8;
                CUTOFF := 16 |} in
  exists fuel out m',
    main Kernels.basicsort Kernels.basicmerge fuel true argv 1804289383
      0 1024 (fun _ => 0) = Exit0 cfg out m' /\
    process_args true (tl argv) default_config = ArgsOk cfg /\
    ((forall k, ~ In (PrintNotSorted k) out) <->
     (forall i, 0 <= i < N cfg - 1 -> m' (0 + i) <= m' (0 + i + 1))).
Proof.
  intros argv cfg.
  destruct (main_exit0_sorted Kernels.basicsort Kernels.basicmerge true argv
              cfg 1804289383 0 1024 (fun _ => 0)
              kernels_basicsort_ok kernels_basicmerge_ok) as [fuel0 Hrun].
  - reflexivity.
  - exists 10%nat. reflexivity.
  - unfold INT_MAX. simpl. lia.
  - unfold valid_thresholds, LONG_MAX. simpl. lia.
  - left. simpl. lia.
  - destruct (Hrun fuel0 (le_n fuel0)) as (m' & E & _).
    exists fuel0, [PrintProblem 1 4 8; PrintCutoff 16; PrintFinished], m'.
    split; [exact E|].
    apply (main_report Kernels.basicsort Kernels.basicmerge fuel0 true argv
             1804289383 0 1024 (fun _ => 0) cfg
             [PrintProblem 1 4 8; PrintCutoff 16; PrintFinished] m');
      [unfold INT_MAX; simpl; lia | exact E].
Defined.

(** ** The scratch buffer and the empty input *)

(** X15.  After a call that took the recursive branch, the scratch buffer
    holds the input too: each half of [tmp[0..n)] is in non-decreasing
    order, and [tmp[0..n)] is a permutation of what [data[0..n)] held
    before the call. *)
Theorem multisort_scratch_content basicsort basicmerge cfg n data tmp m
  fuel m' :
  basicsort_contract basicsort -> basicmerge_contract basicmerge ->
  is_pow2 n -> buffer_size_ok n -> disjoint data n tmp n ->
  0 < MIN_SORT_SIZE cfg -> 4 * MIN_SORT_SIZE cfg <= n ->
  multisort basicsort basicmerge cfg fuel n data tmp m = Some m' ->
  Sorted Z.le (load_range m' tmp (n ÷ 2)) /\
  Sorted Z.le (load_range m' (tmp + n ÷ 2) (n ÷ 2)) /\
  Permutation (load_range m data n) (load_range m' tmp n).
Proof.
  intros Hbs Hbm [k ->] Hb D Hs Hge Hrun. unfold buffer_size_ok in Hb.
  destruct (pow2_ge_4 k (MIN_SORT_SIZE cfg)) as [j ->]; [lia | lia |].
  rewrite !pow2_S in *. pose proof (pow2_pos j) as Hj.
  replace (2 * (2 * 2 ^ Z.of_nat j)) with (4 * 2 ^ Z.of_nat j) in * by ring.
  rewrite quot_4q_2.
  destruct fuel as [|fuel]; [discriminate|].
  apply multisort_step in Hrun;
    [|rewrite wrap64_id by (unfold in_long, LONG_MIN; lia); lia | lia].
  destruct Hrun as (m1 & m2 & m3 & m4 & m5 & m6
                    & E1 & E2 & E3 & E4 & E5 & E6 & E7).
  apply (multisort_spec _ _ _ Hbs Hbm) in E1; [|lia|ranges].
  apply (multisort_spec _ _ _ Hbs Hbm) in E2; [|lia|ranges].
  apply (multisort_spec _ _ _ Hbs Hbm) in E3; [|lia|ranges].
  apply (multisort_spec _ _ _ Hbs Hbm) in E4; [|lia|ranges].
  destruct E1 as [R1 F1], E2 as [R2 F2], E3 as [R3 F3], E4 as [R4 F4].
  destruct (multisort_phases basicmerge cfg Hbm fuel j
              data tmp m m1 m2 m3 m4 m5 m6 m')
    as (([S0 P0] & [S1 P1] & [S2 P2] & [S3 P3])
        & (A5 & U5) & (A6 & U6) & (A7 & U7) & _ & _);
    try assumption; try lia.
  set (q := 2 ^ Z.of_nat j) in *.
  assert (T0 : load_range m' tmp (2 * q)
               = merge_lists (load_range m4 data q)
                             (load_range m4 (data + q) q)).
  { rewrite (unchanged_outside_load m6 m' data tmp (4 * q) (2 * q) U7)
      by ranges.
    rewrite (unchanged_outside_load m5 m6 (tmp + 2 * q) tmp (2 * q) (2 * q) U6)
      by ranges.
    exact A5. }
  assert (T1 : load_range m' (tmp + 2 * q) (2 * q)
               = merge_lists (load_range m4 (data + 2 * q) q)
                             (load_range m4 (data + 3 * q) q)).
  { rewrite (unchanged_outside_load m6 m' data (tmp + 2 * q) (4 * q) (2 * q) U7)
      by ranges.
    exact A6. }
  split; [rewrite T0; now apply merge_lists_sorted|].
  split; [rewrite T1; now apply merge_lists_sorted|].
  replace (4 * q) with (2 * q + 2 * q) at 2 by ring.
  rewrite (load_range_app m' tmp) by lia. rewrite T0, T1.
  replace (4 * q) with (q + (q + (q + q))) by ring.
  rewrite !load_range_app by lia.
  replace (data + q + q) with (data + 2 * q) by ring.
  replace (data + 2 * q + q) with (data + 3 * q) by ring.
  rewrite app_assoc. apply Permutation_app.
  - rewrite <- merge_lists_perm. now apply Permutation_app.
  - rewrite <- merge_lists_perm. now apply Permutation_app.
Qed.

Lemma multisort_scratch_content_witness :
  option_map (fun m' => load_range m' 8 8)
    (multisort Kernels.basicsort Kernels.basicmerge scenario_config
       5 8 0 8 scenario_mem)
  = Some [1; 3; 5; 8; 2; 4; 7; 9] /\
  Sorted Z.le [1; 3; 5; 8] /\ Sorted Z.le [2; 4; 7; 9] /\
  Permutation scenario_input [1; 3; 5; 8; 2; 4; 7; 9].
Proof.
  destruct (multisort Kernels.basicsort Kernels.basicmerge scenario_config
              5 8 0 8 scenario_mem) as [m'|] eqn:E;
    [|vm_compute in E; discriminate].
  destruct (multisort_scratch_content Kernels.basicsort Kernels.basicmerge
              scenario_config 8 0 8 scenario_mem 5 m'
              kernels_basicsort_ok kernels_basicmerge_ok
              scenario_pow2 scenario_size scenario_disjoint)
    as (H0 & H1 & HP); [simpl; lia | simpl; lia | exact E |].
  injection E as <-.
  split; [vm_compute; reflexivity|].
  split; [exact H0|]. split; [exact H1 | exact HP].
Defined.

(** X16.  With [N = 0] (from [-n 0]) and a positive sort threshold, [main]
    returns 0 after the base-case sort of an empty range: no cell of the
    memory has changed, and no error is printed. *)
Theorem main_empty basicsort basicmerge openmp argv cfg rnd data tmp m fuel :
  basicsort_contract basicsort ->
  process_args openmp (tl argv) default_config = ArgsOk cfg ->
  N cfg = 0 ->
  0 < MIN_SORT_SIZE cfg -> MIN_SORT_SIZE cfg * 4 <= LONG_MAX ->
  exists m',
    main basicsort basicmerge (S fuel) openmp argv rnd data tmp m
    = Exit0 cfg
        (PrintProblem 0 (MIN_SORT_SIZE cfg) (MIN_MERGE_SIZE cfg)
         :: (if openmp then [PrintCutoff (CUTOFF cfg)] else [])
         ++ [PrintFinished])
        m' /\
    forall a, m' a = m a.
Proof.
  intros Hbs Hargs HN Hs Hs4. unfold main. rewrite Hargs, HN.
  rewrite multisort_S, wrap64_id by (unfold in_long, LONG_MIN; lia).
  replace (_ <=? 0) with false by (symmetry; apply Z.leb_gt; lia).
  change (clear 0 tmp (initialize cfg rnd 0 data m)) with m.
  assert (H0 : 0 <= INT_MAX) by (unfold INT_MAX; lia).
  pose proof (check_sorted_count 0 data (basicsort 0 data m) H0) as [Hr _].
  replace (check_sorted 0 data (basicsort 0 data m)) with 0
    by (simpl in Hr; lia).
  exists (basicsort 0 data m). split; [reflexivity|].
  intros a. destruct (Hbs 0 data m) as (_ & _ & Hu); [lia|].
  apply Hu. unfold in_range. lia.
Qed.

Lemma main_empty_witness :
  exists m',
    main Kernels.basicsort Kernels.basicmerge 1 true
      ["multisort"; "-n"; "0"]%string 7 0 8 scenario_mem
    = Exit0 {| N := 0; MIN_SORT_SIZE := 1024; MIN_MERGE_SIZE := 1024;
               CUTOFF := 16 |}
        [PrintProblem 0 1024 1024; PrintCutoff 16; PrintFinished] m' /\
    forall a, m' a = scenario_mem a.
Proof.
  apply (main_empty Kernels.basicsort Kernels.basicmerge true
           ["multisort"; "-n"; "0"]%string
           {| N := 0; MIN_SORT_SIZE := 1024; MIN_MERGE_SIZE := 1024;
              CUTOFF := 16 |} 7 0 8 scenario_mem 0 kernels_basicsort_ok).
  - reflexivity.
  - reflexivity.
  - simpl. lia.
  - unfold LONG_MAX. simpl. lia.
Defined.
